(** * Parallel quicksort (qsort_demo.c): model and verification

    The C program sorts an [int] array in place with a Hoare-style
    partition.  [qSort] recurses sequentially; [qSortPar] recurses inline
    below the global [cutoff] and otherwise creates two OpenMP tasks.

    The embedding is a state-and-error monad over a machine state that
    holds the array memory, the pool of created-but-not-yet-run tasks
    and a chronological log of partition calls and task creations.
    Unbounded loops and recursion take a fuel argument; running out of
    fuel ([OutOfFuel]) is kept apart from undefined behaviour ([Fault]:
    an access outside the array, or signed overflow of an [int]). *)

From Stdlib Require Import ZArith List Lia Permutation Sorted.
From stdpp Require Import base list sorting.

Local Open Scope Z_scope.

(** ** Outcomes and machine state *)

Inductive outcome (A : Type) : Type :=
| Done (a : A)
| Fault
| OutOfFuel.

Arguments Done {A} a.
Arguments Fault {A}.
Arguments OutOfFuel {A}.

(** A task captures the arguments of one deferred call
    [qSortPar(A, length)] (firstprivate copies of the pragma). *)
Record task : Type := Task { t_base : Z; t_len : Z }.

(** Log entries: a call [partition(A, length)], and the creation of a
    task for [qSortPar(A, length)]. *)
Inductive event : Type :=
| EvPartition (A length : Z)
| EvTask (A length : Z).

Record state : Type := State {
  heap : list Z;        (* the int array, element k at address k *)
  pool : list task;     (* tasks created and not yet started *)
  trace : list event    (* log, oldest entry first *)
}.

Definition set_heap (h : list Z) (st : state) : state :=
  {| heap := h; pool := pool st; trace := trace st |}.
Definition set_pool (p : list task) (st : state) : state :=
  {| heap := heap st; pool := p; trace := trace st |}.
Definition log (e : event) (st : state) : state :=
  {| heap := heap st; pool := pool st; trace := trace st ++ [e] |}.

(** The two process-wide variables of the program. *)
Record config : Type := Config { thread_count : Z; cutoff : Z }.

(** ** The monad *)

Definition M (A : Type) : Type := state -> outcome (A * state).

Definition ret {A} (a : A) : M A := fun st => Done (a, st).

Definition bind {A B} (m : M A) (f : A -> M B) : M B :=
  fun st =>
    match m st with
    | Done (a, st') => f a st'
    | Fault => Fault
    | OutOfFuel => OutOfFuel
    end.

Definition fault {A} : M A := fun _ => Fault.
Definition out_of_fuel {A} : M A := fun _ => OutOfFuel.

Notation "'let*' x := m 'in' k" := (bind m (fun x => k))
  (at level 10, x name, m at level 100, k at level 200, only parsing).

(** ** C [int] arithmetic and array accesses

    [int] is taken to be 32 bits wide.  Index and length computations
    go through [int]; array elements are only compared and copied, so
    they are kept as integers without a range. *)

Definition INT_MAX : Z := 2147483647.
Definition INT_MIN : Z := -2147483648.

(** The result of an [int] operation: overflow is undefined. *)
Definition int (z : Z) : M Z :=
  if (INT_MIN <=? z) && (z <=? INT_MAX) then ret z else fault.

(** Read of the array element at address [a]. *)
Definition rd (a : Z) : M Z := fun st =>
  if a <? 0 then Fault
  else match heap st !! Z.to_nat a with
       | Some v => Done (v, st)
       | None => Fault
       end.

(** Write of [v] to the array element at address [a]. *)
Definition wr (a v : Z) : M unit := fun st =>
  if (0 <=? a) && (a <? Z.of_nat (length (heap st)))
  then Done (tt, set_heap (<[Z.to_nat a := v]> (heap st)) st)
  else Fault.

Definition emit (e : event) : M unit := fun st => Done (tt, log e st).

(** [#pragma omp task]: the call is queued, the creator goes on. *)
Definition spawn (A length : Z) : M unit := fun st =>
  Done (tt, log (EvTask A length) (set_pool (pool st ++ [Task A length]) st)).

(** ** partition (lines 164-183) *)

(** [while (A[i] < pivot) i++;] *)
Fixpoint scan_up (fuel : nat) (A pivot i : Z) : M Z :=
  match fuel with
  | O => out_of_fuel
  | S k =>
      let* x := rd (A + i) in
      if x <? pivot then let* i' := int (i + 1) in scan_up k A pivot i'
      else ret i
  end.

(** [while (A[j] > pivot) j--;] *)
Fixpoint scan_down (fuel : nat) (A pivot j : Z) : M Z :=
  match fuel with
  | O => out_of_fuel
  | S k =>
      let* x := rd (A + j) in
      if x >? pivot then let* j' := int (j - 1) in scan_down k A pivot j'
      else ret j
  end.

(** The body of [while (true)]. *)
Fixpoint part_loop (fuel : nat) (A pivot i j : Z) : M Z :=
  match fuel with
  | O => out_of_fuel
  | S k =>
      let* i1 := scan_up k A pivot i in
      let* j1 := scan_down k A pivot j in
      if i1 >=? j1 then ret i1
      else
        let* temp := rd (A + i1) in
        let* x := rd (A + j1) in
        let* _ := wr (A + i1) x in
        let* _ := wr (A + j1) temp in
        let* i2 := int (i1 + 1) in
        let* j2 := int (j1 - 1) in
        part_loop k A pivot i2 j2
  end.

(** The first line is instrumentation (the call is logged); the rest
    is the C function. *)
Definition partition (fuel : nat) (A length : Z) : M Z :=
  let* _ := emit (EvPartition A length) in
  let* h := int (Z.quot length 2) in
  let* pivot := rd (A + h) in
  let* j := int (length - 1) in
  part_loop fuel A pivot 0 j.

(** ** qSort (lines 149-156) *)

Fixpoint qSort (fuel : nat) (A length : Z) : M unit :=
  match fuel with
  | O => out_of_fuel
  | S k =>
      if length >? 1 then
        let* p := partition k A length in
        let* _ := qSort k A p in
        let* l2 := int (length - p) in
        qSort k (A + p) l2
      else ret tt
  end.

(** ** qSortPar (lines 192-212)

    In the fork branch the two pragmas capture [A], [p] and [length] by
    value; the arguments [A + p] and [length - p] of the second call
    are computed here, when the task is created, from those same
    values. *)

Fixpoint qSortPar (fuel : nat) (cfg : config) (A length : Z) : M unit :=
  match fuel with
  | O => out_of_fuel
  | S k =>
      if length >? 1 then
        let* p := partition k A length in
        if length <? cutoff cfg then
          let* _ := qSortPar k cfg A p in
          let* l2 := int (length - p) in
          qSortPar k cfg (A + p) l2
        else
          let* _ := spawn A p in
          let* l2 := int (length - p) in
          spawn (A + p) l2
      else ret tt
  end.

(** ** The parallel region of main (lines 108-113)

    [#pragma omp parallel num_threads(thread_count)] with a
    [single nowait] initial call, closed by the region's barrier.  The
    OpenMP runtime is not part of the program: it is a parameter
    [sched] that, given the team size, the step number and the pending
    pool, names the task that starts next.  [thread_count] reaches the
    runtime and nothing else.  Tasks are run one at a time to
    completion, in the scheduler's order: a task either sorts its range
    inline or partitions it and queues the two halves, so it touches
    its own range and the pool only (see [qSortPar_block]), and the
    ranges of the queued tasks never overlap (see [Inv]).

    Two limits of this model.  It stands for a team of at least one
    thread: what the runtime does with a non-positive [thread_count]
    is not part of the program and is not modelled.  And the log is the
    log of the one-task-at-a-time run: the final array and the numbers
    of partition calls and of task creations do not depend on that,
    the relative order of the entries of different tasks does. *)

Definition scheduler : Type := Z -> nat -> list task -> nat.

Definition take_task (n : nat) : M task := fun st =>
  match pool st !! n with
  | Some t => Done (t, set_pool (delete n (pool st)) st)
  | None => Fault
  end.

Fixpoint run_tasks (fuel : nat) (cfg : config) (sched : scheduler)
    (step : nat) : M unit :=
  match fuel with
  | O => out_of_fuel
  | S k => fun st =>
      match pool st with
      | [] => Done (tt, st)
      | _ :: _ =>
          let n := (sched (thread_count cfg) step (pool st)
                     mod length (pool st))%nat in
          (let* t := take_task n in
           let* _ := qSortPar k cfg (t_base t) (t_len t) in
           run_tasks k cfg sched (S step)) st
      end
  end.

Definition parallel_single (fuel : nat) (cfg : config) (sched : scheduler)
    (length : Z) : M unit :=
  let* _ := qSortPar fuel cfg 0 length in
  run_tasks fuel cfg sched 0.

(** ** Entry points as main uses them *)

Definition init (l : list Z) : state :=
  {| heap := l; pool := []; trace := [] |}.

Definition len (l : list Z) : Z := Z.of_nat (length l).

(** [qSort(A1, length)] (line 82). *)
Definition sort_seq (fuel : nat) (l : list Z) : outcome (unit * state) :=
  qSort fuel 0 (len l) (init l).

(** The parallel region around [qSortPar(A2, length)]. *)
Definition sort_par (fuel : nat) (cfg : config) (sched : scheduler)
    (l : list Z) : outcome (unit * state) :=
  parallel_single fuel cfg sched (len l) (init l).

(** The array left behind by a run, when there is one. *)
Definition result {A} (o : outcome (A * state)) : option (list Z) :=
  match o with
  | Done (_, st) => Some (heap st)
  | _ => None
  end.

(** * Vocabulary of the proofs *)

(** [below r r']: [r'] is [r], or [r] ran out of fuel. *)
Definition below {A} (r r' : outcome A) : Prop := r = OutOfFuel \/ r = r'.

(** Log entries of the sequential sorter. *)
Definition is_partition (e : event) : bool :=
  match e with EvPartition _ _ => true | EvTask _ _ => false end.

(** ** The array as a row of blocks

    While tasks are pending the array is a row of consecutive blocks:
    a [Pending] block is the range of a queued task, a [Finished] block
    is already sorted, and every element of a block is at most every
    element of every block to its right. *)

Inductive block : Type :=
| Pending (l : list Z)
| Finished (l : list Z).

Definition cells (b : block) : list Z :=
  match b with Pending l => l | Finished l => l end.

Fixpoint flat (bs : list block) : list Z :=
  match bs with
  | [] => []
  | b :: bs' => cells b ++ flat bs'
  end.

Fixpoint tasks_of (base : Z) (bs : list block) : list task :=
  match bs with
  | [] => []
  | Pending l :: bs' => Task base (len l) :: tasks_of (base + len l) bs'
  | Finished l :: bs' => tasks_of (base + len l) bs'
  end.

Fixpoint ordered (bs : list block) : Prop :=
  match bs with
  | [] => True
  | b :: bs' =>
      (forall x y, x ∈ cells b -> y ∈ flat bs' -> x <= y) /\ ordered bs'
  end.

Definition settled (b : block) : Prop :=
  match b with
  | Pending l => 1 <= len l
  | Finished l => StronglySorted Z.le l
  end.

(** Termination measure of the task loop. *)
Fixpoint weight (bs : list block) : nat :=
  match bs with
  | [] => 0
  | Pending l :: bs' => (2 * length l - 1) + weight bs'
  | Finished _ :: bs' => weight bs'
  end.

Definition Inv (st : state) (bs : list block) : Prop :=
  heap st = flat bs /\ pool st ≡ₚ tasks_of 0 bs
  /\ ordered bs /\ Forall settled bs.

(** A log in which every partition call is followed at once by the
    creation of the two tasks for its halves.  The one-task-at-a-time
    run with cutoff <= 0 produces such a log; it is used to count task
    creations, the order itself is a feature of that run. *)
Fixpoint forks_only (tr : list event) : bool :=
  match tr with
  | [] => true
  | EvPartition A L :: EvTask A1 p :: EvTask A2 q :: tr' =>
      (A1 =? A) && (A2 =? A + p) && (q =? L - p) && forks_only tr'
  | _ => false
  end.

(** ** Reading a log *)

(** Number of partition calls, and of task creations, in a log. *)
Fixpoint parts (tr : list event) : nat :=
  match tr with
  | [] => 0
  | EvPartition _ _ :: tr' => S (parts tr')
  | EvTask _ _ :: tr' => parts tr'
  end.

Fixpoint spawns (tr : list event) : nat :=
  match tr with
  | [] => 0
  | EvPartition _ _ :: tr' => spawns tr'
  | EvTask _ _ :: tr' => S (spawns tr')
  end.

(** The range named by a log entry lies in [lo, hi); a partition call
    is on at least two elements, a task on at least one. *)
Definition inside (lo hi : Z) (e : event) : Prop :=
  match e with
  | EvPartition A L => lo <= A /\ 2 <= L /\ A + L <= hi
  | EvTask A L => lo <= A /\ 1 <= L /\ A + L <= hi
  end.

(** Partition calls still owed by a pool: a range of [n >= 1] elements
    is cut [n - 1] times before every piece is a single element. *)
Fixpoint pool_cuts (ts : list task) : Z :=
  match ts with
  | [] => 0
  | t :: ts' => (t_len t - 1) + pool_cuts ts'
  end.

(** ** The pool while the parallel region runs *)

(** Two tasks whose ranges do not meet. *)
Definition apart (t1 t2 : task) : Prop :=
  t_base t1 + t_len t1 <= t_base t2 \/ t_base t2 + t_len t2 <= t_base t1.

Inductive no_overlap : list task -> Prop :=
| no_overlap_nil : no_overlap []
| no_overlap_cons t ts :
    Forall (apart t) ts -> no_overlap ts -> no_overlap (t :: ts).

(** A task on a non-empty range inside [lo, hi). *)
Definition task_inside (lo hi : Z) (t : task) : Prop :=
  lo <= t_base t /\ 1 <= t_len t /\ t_base t + t_len t <= hi.

(** The states the parallel region goes through on array [l]: the one
    left by the initial call of qSortPar, and from any of them the one
    left by taking any pending task and running it. *)
Inductive reachable (cfg : config) (l : list Z) : state -> Prop :=
| reach_start fuel st :
    qSortPar fuel cfg 0 (len l) (init l) = Done (tt, st) ->
    reachable cfg l st
| reach_task fuel st n t s st' :
    reachable cfg l st ->
    take_task n st = Done (t, s) ->
    qSortPar fuel cfg (t_base t) (t_len t) s = Done (tt, st') ->
    reachable cfg l st'.

(** * Runs on concrete inputs *)

Example sort_seq_demo :
  result (sort_seq 20 [5; 3; 8; 1; 9; 2]) = Some [1; 2; 3; 5; 8; 9].
Proof. reflexivity. Qed.

Example sort_par_demo :
  result (sort_par 40 (Config 4 1) (fun _ n _ => n) [9; 8; 7; 6; 5])
  = Some [5; 6; 7; 8; 9].
Proof. reflexivity. Qed.

Example sort_seq_dups :
  result (sort_seq 20 [4; 4; 4; 4]) = Some [4; 4; 4; 4].
Proof. reflexivity. Qed.

(** * Verification *)

(** ** The monad and the primitive operations *)

Lemma bind_done {A B} (m : M A) (f : A -> M B) st a st' :
  m st = Done (a, st') -> bind m f st = f a st'.
Proof. intros H. unfold bind. now rewrite H. Qed.

Lemma bind_cong {A B} (m m' : M A) (f : A -> M B) st :
  m st = m' st -> bind m f st = bind m' f st.
Proof. intros H. unfold bind. now rewrite H. Qed.

Lemma bind_ext_on {A B} (m : M A) (f g : A -> M B) st :
  (forall a s, m st = Done (a, s) -> f a s = g a s) ->
  bind m f st = bind m g st.
Proof.
  intros H. unfold bind. destruct (m st) as [[a s]| |]; auto.
Qed.

Lemma len_nonneg l : 0 <= len l.
Proof. unfold len. lia. Qed.

Lemma len_app l1 l2 : len (l1 ++ l2) = len l1 + len l2.
Proof. unfold len. rewrite length_app. lia. Qed.

Lemma len_perm (l l' : list Z) : l ≡ₚ l' -> len l = len l'.
Proof. intros H. unfold len. now rewrite (Permutation_length H). Qed.

Lemma len_split (l l1 l2 : list Z) :
  l ≡ₚ l1 ++ l2 -> len l = len l1 + len l2.
Proof. intros H. now rewrite (len_perm _ _ H), len_app. Qed.

Lemma int_done z st :
  INT_MIN <= z <= INT_MAX -> int z st = Done (z, st).
Proof.
  intros [H1 H2]. unfold int.
  destruct (Z.leb_spec INT_MIN z); [|lia].
  destruct (Z.leb_spec z INT_MAX); [|lia].
  reflexivity.
Qed.

(** An [int] result that provably fits. *)
Ltac int_ok := apply int_done; unfold len, INT_MIN, INT_MAX in *; lia.

(** ** Swapping two elements *)

Lemma insert_perm (l : list Z) (j : nat) x y :
  l !! j = Some y -> x :: l ≡ₚ y :: <[j := x]> l.
Proof.
  revert j. induction l as [|a l IH]; intros [|j] Hj; simpl in *;
    try discriminate.
  - injection Hj as ->. apply perm_swap.
  - rewrite perm_swap, (IH j Hj). apply perm_swap.
Qed.

Lemma swap_perm (l : list Z) (i j : nat) x y :
  (i < j)%nat -> l !! i = Some x -> l !! j = Some y ->
  l ≡ₚ <[j := x]> (<[i := y]> l).
Proof.
  revert i j. induction l as [|a l IH]; intros [|i] [|j] Hij Hi Hj;
    simpl in *; try discriminate; try lia.
  - injection Hi as ->. now apply insert_perm.
  - constructor. apply IH; auto. lia.
Qed.

Lemma swap_lookup (l : list Z) (i j k : nat) x y :
  (i < j < length l)%nat ->
  <[j := x]> (<[i := y]> l) !! k
  = if decide (k = j) then Some x
    else if decide (k = i) then Some y else l !! k.
Proof.
  intros Hij. destruct (decide (k = j)) as [->|Hkj].
  - apply list_lookup_insert_eq. rewrite length_insert. lia.
  - rewrite list_lookup_insert_ne by auto.
    destruct (decide (k = i)) as [->|Hki].
    + apply list_lookup_insert_eq. lia.
    + now rewrite list_lookup_insert_ne by auto.
Qed.

Lemma set_heap_id st h : heap st = h -> set_heap h st = st.
Proof. intros <-. now destruct st. Qed.

(** ** A range of the array as a window

    The range [A, A+length) of the array is described by cutting the
    memory into [pre ++ l ++ post] with [A = len pre]: [l] is what the
    callee sees as [A[0 .. length-1]].  What lies left and right of
    the window is fixed throughout. *)

Section Window.

Variables pre post : list Z.

Lemma rd_window st l i v :
  heap st = pre ++ l ++ post ->
  0 <= i -> l !! Z.to_nat i = Some v ->
  rd (len pre + i) st = Done (v, st).
Proof.
  intros Hh Hi Hv. unfold rd, len.
  destruct (Z.ltb_spec (Z.of_nat (length pre) + i) 0); [lia|].
  replace (Z.to_nat (Z.of_nat (length pre) + i))
    with (length pre + Z.to_nat i)%nat by lia.
  rewrite Hh, lookup_app_r by lia.
  replace (length pre + Z.to_nat i - length pre)%nat with (Z.to_nat i) by lia.
  now rewrite lookup_app_l, Hv by (eapply lookup_lt_Some; eauto).
Qed.

Lemma wr_window st l i v :
  heap st = pre ++ l ++ post ->
  0 <= i < len l ->
  wr (len pre + i) v st
  = Done (tt, set_heap (pre ++ <[Z.to_nat i := v]> l ++ post) st).
Proof.
  intros Hh Hi. unfold wr, len in *.
  destruct (Z.leb_spec 0 (Z.of_nat (length pre) + i)); [|lia].
  destruct (Z.ltb_spec (Z.of_nat (length pre) + i)
              (Z.of_nat (length (heap st)))) as [_|Hge].
  - simpl. do 2 f_equal. rewrite Hh.
    replace (Z.to_nat (Z.of_nat (length pre) + i))
      with (length pre + Z.to_nat i)%nat by lia.
    rewrite insert_app_r, insert_app_l by lia. reflexivity.
  - rewrite Hh, !length_app in Hge. lia.
Qed.

(** ** The two scans stop at a sentinel *)

Lemma scan_up_spec fuel st l pivot i (n : nat) v :
  heap st = pre ++ l ++ post -> len l <= INT_MAX ->
  0 <= i <= Z.of_nat n -> l !! n = Some v -> pivot <= v ->
  Z.of_nat n - i < Z.of_nat fuel ->
  exists i' w,
    scan_up fuel (len pre) pivot i st = Done (i', st)
    /\ i <= i' <= Z.of_nat n
    /\ l !! Z.to_nat i' = Some w /\ pivot <= w
    /\ (forall (k : nat) x,
          l !! k = Some x -> i <= Z.of_nat k < i' -> x < pivot).
Proof.
  intros Hh Hmax Hi Hn Hv. revert i Hi.
  induction fuel as [|fuel IH]; intros i Hi Hf; [lia|].
  assert (Hlt : (n < length l)%nat) by (eapply lookup_lt_Some; eauto).
  destruct (lookup_lt_is_Some_2 l (Z.to_nat i)) as [x Hx]; [lia|].
  simpl. erewrite bind_done by (eapply rd_window; eauto; lia).
  destruct (Z.ltb_spec x pivot) as [Hxp|Hxp].
  - assert (i <> Z.of_nat n).
    { intros ->. rewrite Nat2Z.id in Hx. assert (x = v) by congruence. lia. }
    erewrite bind_done by int_ok.
    destruct (IH (i + 1)) as (i' & w & Hrun & Hrange & Hw & Hpw & Hbelow);
      [lia|lia|].
    exists i', w. repeat split; try lia; auto.
    intros k y Hk Hki.
    destruct (Z.eq_dec (Z.of_nat k) i) as [<-|].
    + rewrite Nat2Z.id in Hx. assert (y = x) by congruence. lia.
    + apply (Hbelow k); auto. lia.
  - exists i, x. repeat split; try lia; auto.
Qed.

Lemma scan_down_spec fuel st l pivot j (n : nat) v :
  heap st = pre ++ l ++ post -> len l <= INT_MAX ->
  Z.of_nat n <= j < len l -> l !! n = Some v -> v <= pivot ->
  j - Z.of_nat n < Z.of_nat fuel ->
  exists j' w,
    scan_down fuel (len pre) pivot j st = Done (j', st)
    /\ Z.of_nat n <= j' <= j
    /\ l !! Z.to_nat j' = Some w /\ w <= pivot
    /\ (forall (k : nat) x,
          l !! k = Some x -> j' < Z.of_nat k <= j -> pivot < x).
Proof.
  intros Hh Hmax Hj Hn Hv. revert j Hj.
  induction fuel as [|fuel IH]; intros j Hj Hf; [lia|].
  destruct (lookup_lt_is_Some_2 l (Z.to_nat j)) as [x Hx];
    [unfold len in *; lia|].
  simpl. erewrite bind_done by (eapply rd_window; eauto; lia).
  rewrite Z.gtb_ltb.
  destruct (Z.ltb_spec pivot x) as [Hxp|Hxp].
  - assert (j <> Z.of_nat n).
    { intros ->. rewrite Nat2Z.id in Hx. assert (x = v) by congruence. lia. }
    erewrite bind_done by int_ok.
    destruct (IH (j - 1)) as (j' & w & Hrun & Hrange & Hw & Hpw & Habove);
      [lia|lia|].
    exists j', w. repeat split; try lia; auto.
    intros k y Hk Hkj.
    destruct (Z.eq_dec (Z.of_nat k) j) as [<-|].
    + rewrite Nat2Z.id in Hx. assert (y = x) by congruence. lia.
    + apply (Habove k); auto. lia.
  - exists j, x. repeat split; try lia; auto.
Qed.

(** ** The outer loop of partition

    Invariant at the head of [while (true)]: everything left of [i] is
    at most the pivot, everything right of [j] is at least the pivot,
    an element at least the pivot waits at or right of [i] (no further
    than [j+1]) and an element at most the pivot waits at or left of [j]
    (no further than [i-1]); and either [i] has already moved, or the
    pivot's own slot [m >= 1] still lies between the cursors. *)

Lemma part_loop_spec fuel :
  forall st l pivot i j (su sd : nat) vu vd,
    heap st = pre ++ l ++ post -> len l <= INT_MAX ->
    0 <= i -> j < len l ->
    l !! su = Some vu -> pivot <= vu -> i <= Z.of_nat su <= j + 1 ->
    l !! sd = Some vd -> vd <= pivot -> i - 1 <= Z.of_nat sd <= j ->
    (forall (k : nat) x, l !! k = Some x -> Z.of_nat k < i -> x <= pivot) ->
    (forall (k : nat) x, l !! k = Some x -> j < Z.of_nat k -> pivot <= x) ->
    (1 <= i \/ exists m : nat,
        l !! m = Some pivot /\ 1 <= Z.of_nat m /\ i <= Z.of_nat m <= j) ->
    j - i + 3 <= Z.of_nat fuel ->
    exists p l',
      part_loop fuel (len pre) pivot i j st
      = Done (p, set_heap (pre ++ l' ++ post) st)
      /\ l ≡ₚ l' /\ 1 <= p < len l
      /\ (forall (k : nat) x,
            l' !! k = Some x -> Z.of_nat k < p -> x <= pivot)
      /\ (forall (k : nat) x,
            l' !! k = Some x -> p <= Z.of_nat k -> pivot <= x).
Proof.
  induction fuel as [|fuel IH];
    intros st l pivot i j su sd vu vd
           Hh Hmax Hi Hj Hsu Hvu Hsur Hsd Hvd Hsdr Hlo Hhi Hprog Hf.
  { assert (Z.of_nat su < len l)
      by (apply lookup_lt_Some in Hsu; unfold len; lia).
    lia. }
  destruct (scan_up_spec fuel st l pivot i su vu)
    as (i1 & w1 & Hup & Hi1 & Hw1 & Hpw1 & Hbelow); auto; try lia.
  destruct (scan_down_spec fuel st l pivot j sd vd)
    as (j1 & w2 & Hdown & Hj1 & Hw2 & Hpw2 & Habove); auto; try lia.
  assert (Hi1l : Z.of_nat (Z.to_nat i1) < len l)
    by (apply lookup_lt_Some in Hw1; unfold len; lia).
  assert (Hj1l : Z.of_nat (Z.to_nat j1) < len l)
    by (apply lookup_lt_Some in Hw2; unfold len; lia).
  simpl. rewrite (bind_done _ _ _ _ _ Hup), (bind_done _ _ _ _ _ Hdown).
  rewrite Z.geb_leb. destruct (Z.leb_spec j1 i1) as [Hge|Hlt].
  - (* the cursors have met: return i *)
    exists i1, l. rewrite (set_heap_id st) by auto.
    split; [reflexivity|]. split; [reflexivity|].
    split; [|split].
    + split; [|lia].
      destruct Hprog as [?|(m & Hm & Hm1 & Hmr)]; [lia|].
      assert (i1 <= Z.of_nat m).
      { destruct (Z.le_gt_cases i1 (Z.of_nat m)); auto.
        specialize (Hbelow m pivot Hm). lia. }
      assert (Z.of_nat m <= j1).
      { destruct (Z.le_gt_cases (Z.of_nat m) j1); auto.
        specialize (Habove m pivot Hm). lia. }
      lia.
    + intros k x Hk Hki.
      destruct (Z.lt_ge_cases (Z.of_nat k) i); [eauto|].
      specialize (Hbelow k x Hk). lia.
    + intros k x Hk Hki.
      destruct (Z.lt_ge_cases j (Z.of_nat k)); [eauto|].
      destruct (Z.lt_ge_cases j1 (Z.of_nat k)).
      * specialize (Habove k x Hk). lia.
      * assert (k = Z.to_nat i1) by lia. subst k.
        assert (x = w1) by congruence. lia.
  - (* swap A[i] and A[j], move both cursors inwards *)
    set (a := Z.to_nat i1) in *. set (b := Z.to_nat j1) in *.
    assert (Hab : (a < b < length l)%nat) by (unfold len in *; lia).
    set (l2 := <[b := w1]> (<[a := w2]> l)).
    set (st1 := set_heap (pre ++ <[a := w2]> l ++ post) st).
    set (st2 := set_heap (pre ++ l2 ++ post) st).
    erewrite bind_done by (eapply rd_window; eauto; lia).
    erewrite bind_done by (eapply rd_window; eauto; lia).
    erewrite bind_done by (eapply wr_window; eauto; lia).
    fold a st1.
    erewrite (bind_done (wr _ _) _ st1 tt st2); cycle 1.
    { erewrite (wr_window st1 (<[a := w2]> l)); [reflexivity| |].
      - reflexivity.
      - unfold len. rewrite length_insert. unfold len in *. lia. }
    erewrite bind_done by int_ok.
    erewrite bind_done by int_ok.
    assert (Hlen2 : len l2 = len l).
    { unfold len, l2. now rewrite !length_insert. }
    destruct (IH st2 l2 pivot (i1 + 1) (j1 - 1) b a w1 w2)
      as (p & l' & Hrun & Hperm & Hp & Hleft & Hright);
      try rewrite Hlen2; auto; try lia.
    + unfold l2. rewrite swap_lookup by auto.
      now destruct (decide (b = b)).
    + unfold l2. rewrite swap_lookup by auto.
      destruct (decide (a = b)); [lia|]. now destruct (decide (a = a)).
    + intros k x Hk Hki. unfold l2 in Hk. rewrite swap_lookup in Hk by auto.
      destruct (decide (k = b)); [lia|].
      destruct (decide (k = a)); [congruence|].
      destruct (Z.lt_ge_cases (Z.of_nat k) i); [eauto|].
      specialize (Hbelow k x Hk). lia.
    + intros k x Hk Hkj. unfold l2 in Hk. rewrite swap_lookup in Hk by auto.
      destruct (decide (k = b)); [congruence|].
      destruct (decide (k = a)); [lia|].
      destruct (Z.lt_ge_cases j (Z.of_nat k)); [eauto|].
      specialize (Habove k x Hk). lia.
    + exists p, l'. rewrite Hrun. split; [reflexivity|].
      split; [etransitivity; [|exact Hperm]; now apply swap_perm|].
      rewrite <- Hlen2. auto.
Qed.

(** ** partition: what a caller may rely on

    On a range [l] of length at least 2, [partition] returns, mutates
    nothing outside the range, and cuts the permuted range into two
    non-empty parts [l1] (indices below the returned split) and [l2],
    separated by the pivot value. *)

Lemma partition_spec fuel st l :
  heap st = pre ++ l ++ post -> 2 <= len l <= INT_MAX ->
  len l + 2 <= Z.of_nat fuel ->
  exists l1 l2 pivot,
    partition fuel (len pre) (len l) st
    = Done (len l1,
            {| heap := pre ++ (l1 ++ l2) ++ post;
               pool := pool st;
               trace := trace st ++ [EvPartition (len pre) (len l)] |})
    /\ l ≡ₚ l1 ++ l2
    /\ 1 <= len l1 /\ 1 <= len l2
    /\ Forall (fun x => x <= pivot) l1
    /\ Forall (fun x => pivot <= x) l2.
Proof.
  intros Hh [H2 Hmax] Hf.
  set (h := Z.quot (len l) 2).
  assert (Hh2 : 1 <= h < len l).
  { unfold h. rewrite Z.quot_div_nonneg by lia.
    split.
    - apply Z.div_le_lower_bound; lia.
    - apply Z.div_lt_upper_bound; lia. }
  destruct (lookup_lt_is_Some_2 l (Z.to_nat h)) as [pivot Hpiv];
    [unfold len in *; lia|].
  set (st0 := log (EvPartition (len pre) (len l)) st).
  destruct (part_loop_spec fuel st0 l pivot 0 (len l - 1)
              (Z.to_nat h) (Z.to_nat h) pivot pivot)
    as (p & l' & Hrun & Hperm & Hp & Hleft & Hright); auto; try lia.
  { intros k x Hk Hkl. apply lookup_lt_Some in Hk. unfold len in *. lia. }
  { right. exists (Z.to_nat h). repeat split; auto; lia. }
  assert (Hlen' : len l' = len l).
  { unfold len. now rewrite <- (Permutation_length Hperm). }
  exists (take (Z.to_nat p) l'), (drop (Z.to_nat p) l'), pivot.
  assert (Hl1 : len (take (Z.to_nat p) l') = p).
  { unfold len in *. rewrite length_take. lia. }
  assert (Hl2 : len (drop (Z.to_nat p) l') = len l - p).
  { unfold len in *. rewrite length_drop. lia. }
  rewrite Hl1, Hl2, take_drop.
  split; [|repeat split; auto; try lia].
  - unfold partition.
    erewrite (bind_done (emit _) _ st tt st0) by reflexivity.
    fold h.
    erewrite bind_done by int_ok.
    erewrite bind_done by (eapply (rd_window st0); eauto; lia).
    erewrite bind_done by int_ok.
    rewrite Hrun. reflexivity.
  - apply Forall_lookup. intros k x Hk.
    apply lookup_take_Some in Hk as [Hk Hkp].
    apply (Hleft k); auto. lia.
  - apply Forall_lookup. intros k x Hk.
    rewrite lookup_drop in Hk.
    apply (Hright _ _ Hk). lia.
Qed.

End Window.

(** ** More fuel never changes a finished run *)

Lemma below_refl {A} (r : outcome A) : below r r.
Proof. now right. Qed.

Lemma below_bind {A B} (m m' : M A) (f f' : A -> M B) st :
  below (m st) (m' st) ->
  (forall a s, below (f a s) (f' a s)) ->
  below (bind m f st) (bind m' f' st).
Proof.
  unfold bind. intros [->| ->] Hf; [now left|].
  destruct (m' st) as [[a s]| |]; auto using below_refl.
Qed.

Lemma below_done {A} (r r' : outcome A) a :
  below r r' -> r = Done a -> r' = Done a.
Proof. intros [->| ->]; [discriminate|auto]. Qed.

Lemma below_fault {A} (r r' : outcome A) :
  below r r' -> r = Fault -> r' = Fault.
Proof. intros [->| ->]; [discriminate|auto]. Qed.

#[local] Hint Resolve below_refl : core.

Lemma scan_up_mono k k' A pivot :
  (k <= k')%nat ->
  forall i st, below (scan_up k A pivot i st) (scan_up k' A pivot i st).
Proof.
  revert k'. induction k as [|k IH]; intros [|k'] Hk i st;
    try lia; try (now left).
  simpl. apply below_bind; auto. intros x s.
  destruct (x <? pivot); auto.
  apply below_bind; auto. intros; apply IH; lia.
Qed.

Lemma scan_down_mono k k' A pivot :
  (k <= k')%nat ->
  forall j st, below (scan_down k A pivot j st) (scan_down k' A pivot j st).
Proof.
  revert k'. induction k as [|k IH]; intros [|k'] Hk j st;
    try lia; try (now left).
  simpl. apply below_bind; auto. intros x s.
  destruct (x >? pivot); auto.
  apply below_bind; auto. intros; apply IH; lia.
Qed.

Lemma part_loop_mono k k' A pivot :
  (k <= k')%nat ->
  forall i j st,
    below (part_loop k A pivot i j st) (part_loop k' A pivot i j st).
Proof.
  revert k'. induction k as [|k IH]; intros [|k'] Hk i j st;
    try lia; try (now left).
  simpl.
  apply below_bind; [apply scan_up_mono; lia|]. intros i1 s1.
  apply below_bind; [apply scan_down_mono; lia|]. intros j1 s2.
  destruct (i1 >=? j1); auto.
  repeat (apply below_bind; auto; intros).
  apply IH; lia.
Qed.

Lemma partition_mono k k' A length st :
  (k <= k')%nat ->
  below (partition k A length st) (partition k' A length st).
Proof.
  intros Hk. unfold partition.
  repeat (apply below_bind; auto; intros).
  now apply part_loop_mono.
Qed.

Lemma qSort_mono k k' :
  (k <= k')%nat ->
  forall A length st, below (qSort k A length st) (qSort k' A length st).
Proof.
  revert k'. induction k as [|k IH]; intros [|k'] Hk A length st;
    try lia; try (now left).
  simpl. destruct (length >? 1); auto.
  apply below_bind; [apply partition_mono; lia|]. intros p s1.
  apply below_bind; [apply IH; lia|]. intros _ s2.
  apply below_bind; auto. intros l2 s3. apply IH; lia.
Qed.

(** ** partition at any fuel *)

Lemma partition_done fuel st pre l post p st' :
  heap st = pre ++ l ++ post -> 2 <= len l <= INT_MAX ->
  partition fuel (len pre) (len l) st = Done (p, st') ->
  exists l1 l2 pivot,
    p = len l1
    /\ st' = {| heap := pre ++ (l1 ++ l2) ++ post;
                pool := pool st;
                trace := trace st ++ [EvPartition (len pre) (len l)] |}
    /\ l ≡ₚ l1 ++ l2
    /\ 1 <= len l1 /\ 1 <= len l2
    /\ Forall (fun x => x <= pivot) l1
    /\ Forall (fun x => pivot <= x) l2.
Proof.
  intros Hh Hl Hrun.
  set (big := (fuel + Z.to_nat (len l + 2))%nat).
  destruct (partition_spec pre post big st l Hh Hl)
    as (l1 & l2 & pivot & Hbig & Hrest); [lia|].
  pose proof (below_done _ _ _
    (partition_mono fuel big (len pre) (len l) st ltac:(lia)) Hrun) as Heq.
  rewrite Hbig in Heq. injection Heq as Hp Hst. subst p st'.
  exists l1, l2, pivot. auto.
Qed.

Lemma partition_no_fault fuel st pre l post :
  heap st = pre ++ l ++ post -> 2 <= len l <= INT_MAX ->
  partition fuel (len pre) (len l) st <> Fault.
Proof.
  intros Hh Hl Hrun.
  set (big := (fuel + Z.to_nat (len l + 2))%nat).
  destruct (partition_spec pre post big st l Hh Hl)
    as (l1 & l2 & pivot & Hbig & _); [lia|].
  pose proof (below_fault _ _
    (partition_mono fuel big (len pre) (len l) st ltac:(lia)) Hrun) as Heq.
  congruence.
Qed.

(** ** qSort sorts its range and nothing else *)

Lemma short_sorted (l : list Z) : len l <= 1 -> StronglySorted Z.le l.
Proof.
  destruct l as [|x [|y l]]; unfold len; simpl; intros; try lia;
    repeat constructor.
Qed.

Lemma state_eta st h tr :
  heap st = h -> tr = [] ->
  st = {| heap := h; pool := pool st; trace := trace st ++ tr |}.
Proof. intros <- ->. rewrite app_nil_r. now destruct st. Qed.

Lemma qSort_spec fuel :
  forall st pre l post,
    heap st = pre ++ l ++ post -> len l <= INT_MAX ->
    len l + 3 <= Z.of_nat fuel ->
    exists l' tr,
      qSort fuel (len pre) (len l) st
      = Done (tt, {| heap := pre ++ l' ++ post;
                     pool := pool st;
                     trace := trace st ++ tr |})
      /\ l ≡ₚ l' /\ StronglySorted Z.le l'
      /\ forallb is_partition tr = true.
Proof.
  induction fuel as [|fuel IH]; intros st pre l post Hh Hmax Hf.
  { pose proof (len_nonneg l). lia. }
  simpl. rewrite Z.gtb_ltb. destruct (Z.ltb_spec 1 (len l)) as [Hl|Hl].
  - destruct (partition_spec pre post fuel st l Hh)
      as (l1 & l2 & pivot & Hpart & Hperm & Hl1 & Hl2 & Hlow & Hhigh);
      [lia|lia|].
    pose proof (len_split _ _ _ Hperm) as Hlen.
    rewrite (bind_done _ _ _ _ _ Hpart).
    match type of Hpart with _ = Done (_, ?s) => set (st1 := s) end.
    destruct (IH st1 pre l1 (l2 ++ post))
      as (l1' & tr1 & Hrun1 & Hperm1 & Hsort1 & Htr1);
      [simpl; now rewrite <- app_assoc|lia|lia|].
    rewrite (bind_done _ _ _ _ _ Hrun1).
    match type of Hrun1 with _ = Done (_, ?s) => set (st2 := s) end.
    pose proof (len_perm _ _ Hperm1) as Hlen1.
    erewrite bind_done by int_ok.
    replace (len l - len l1) with (len l2) by lia.
    replace (len pre + len l1) with (len (pre ++ l1'))
      by (rewrite len_app; lia).
    destruct (IH st2 (pre ++ l1') l2 post)
      as (l2' & tr2 & Hrun2 & Hperm2 & Hsort2 & Htr2);
      [simpl; now rewrite <- app_assoc|lia|lia|].
    rewrite Hrun2.
    exists (l1' ++ l2'),
      (EvPartition (len pre) (len l) :: tr1 ++ tr2).
    split; [|split; [|split]].
    + simpl. now rewrite <- !app_assoc.
    + now rewrite Hperm, Hperm1, Hperm2.
    + apply StronglySorted_app_2; auto.
      intros x y Hx Hy.
      rewrite <- Hperm1 in Hx. rewrite <- Hperm2 in Hy.
      rewrite Forall_forall in Hlow, Hhigh.
      specialize (Hlow x Hx). specialize (Hhigh y Hy). lia.
    + simpl. rewrite forallb_app, Htr1, Htr2. reflexivity.
  - exists l, []. split; [|auto using short_sorted].
    unfold ret. now rewrite <- (state_eta st) by auto.
Qed.

Lemma qSort_done fuel st pre l post st' :
  heap st = pre ++ l ++ post -> len l <= INT_MAX ->
  qSort fuel (len pre) (len l) st = Done (tt, st') ->
  exists l' tr,
    st' = {| heap := pre ++ l' ++ post;
             pool := pool st;
             trace := trace st ++ tr |}
    /\ l ≡ₚ l' /\ StronglySorted Z.le l'
    /\ forallb is_partition tr = true.
Proof.
  intros Hh Hl Hrun.
  set (big := (fuel + Z.to_nat (len l + 3))%nat).
  destruct (qSort_spec big st pre l post Hh Hl)
    as (l' & tr & Hbig & Hrest); [lia|].
  pose proof (below_done _ _ _
    (qSort_mono fuel big ltac:(lia) (len pre) (len l) st) Hrun) as Heq.
  rewrite Hbig in Heq. injection Heq as Hst. subst st'.
  exists l', tr. auto.
Qed.

(** ** The sequential entry point *)

Lemma sorted_unique (l1 l2 : list Z) :
  StronglySorted Z.le l1 -> StronglySorted Z.le l2 -> l1 ≡ₚ l2 -> l1 = l2.
Proof.
  apply StronglySorted_unique_strong. intros; lia.
Qed.

Lemma sort_seq_spec fuel l :
  len l <= INT_MAX -> (length l + 3 <= fuel)%nat ->
  exists st',
    sort_seq fuel l = Done (tt, st')
    /\ pool st' = []
    /\ l ≡ₚ heap st'
    /\ StronglySorted Z.le (heap st')
    /\ forallb is_partition (trace st') = true.
Proof.
  intros Hmax Hf. unfold sort_seq.
  destruct (qSort_spec fuel (init l) [] l [])
    as (l' & tr & Hrun & Hperm & Hsort & Htr);
    [simpl; now rewrite app_nil_r|auto|unfold len; lia|].
  change (len []) with 0 in Hrun. rewrite Hrun.
  eexists. split; [reflexivity|]. simpl. rewrite app_nil_r. auto.
Qed.

(** ** Rows of blocks *)

Lemma flat_app X Y : flat (X ++ Y) = flat X ++ flat Y.
Proof.
  induction X as [|b X IH]; simpl; [auto|]. now rewrite IH, app_assoc.
Qed.

Lemma tasks_of_app a X Y :
  tasks_of a (X ++ Y) = tasks_of a X ++ tasks_of (a + len (flat X)) Y.
Proof.
  revert a. induction X as [|[l|l] X IH]; intros a; simpl.
  - f_equal. unfold len. simpl. lia.
  - rewrite IH, len_app. do 3 f_equal. lia.
  - rewrite IH, len_app. do 2 f_equal. lia.
Qed.

Lemma weight_app X Y : weight (X ++ Y) = (weight X + weight Y)%nat.
Proof. induction X as [|[l|l] X IH]; simpl; lia. Qed.

Lemma ordered_app X Y :
  ordered (X ++ Y) <->
  ordered X /\ ordered Y /\
  (forall x y, x ∈ flat X -> y ∈ flat Y -> x <= y).
Proof.
  induction X as [|b X IH]; simpl.
  - split; [intros H; repeat split; auto|tauto].
    intros x y Hx. now apply elem_of_nil in Hx.
  - rewrite IH, flat_app. split.
    + intros (Hb & HX & HY & HXY). repeat split; auto.
      * intros x y Hx Hy. apply Hb; auto. apply elem_of_app. auto.
      * intros x y Hx Hy. apply elem_of_app in Hx as [Hx|Hx]; auto.
        apply Hb; auto. apply elem_of_app. auto.
    + intros ((Hb & HX) & HY & HXY). repeat split; auto.
      * intros x y Hx Hy. apply elem_of_app in Hy as [Hy|Hy]; auto.
        apply HXY; auto. apply elem_of_app. auto.
      * intros x y Hx Hy. apply HXY; auto. apply elem_of_app. auto.
Qed.

Lemma ordered_replace B1 b B2 new :
  ordered (B1 ++ b :: B2) -> ordered new ->
  (forall x, x ∈ flat new -> x ∈ cells b) ->
  ordered (B1 ++ new ++ B2).
Proof.
  rewrite !ordered_app. simpl.
  intros (H1 & (Hb & H2) & H12) Hnew Hsub.
  repeat split; auto.
  - intros x y Hx Hy. rewrite flat_app in Hy.
    apply elem_of_app in Hy as [Hy|Hy]; apply H12; auto;
      apply elem_of_app; auto.
Qed.

Lemma ordered_single b : ordered [b].
Proof.
  simpl. split; auto. intros x y _ Hy. now apply elem_of_nil in Hy.
Qed.

Lemma tasks_of_elem t a bs :
  t ∈ tasks_of a bs ->
  exists B1 l B2,
    bs = B1 ++ Pending l :: B2 /\ t = Task (a + len (flat B1)) (len l).
Proof.
  revert a. induction bs as [|[l|l] bs IH]; intros a Ht; simpl in Ht.
  - now apply elem_of_nil in Ht.
  - apply elem_of_cons in Ht as [->|Ht].
    + exists [], l, bs. split; auto. simpl. f_equal. unfold len. simpl. lia.
    + destruct (IH _ Ht) as (B1 & l' & B2 & -> & ->).
      exists (Pending l :: B1), l', B2. split; auto.
      simpl. rewrite len_app. f_equal. lia.
  - destruct (IH _ Ht) as (B1 & l' & B2 & -> & ->).
    exists (Finished l :: B1), l', B2. split; auto.
    simpl. rewrite len_app. f_equal. lia.
Qed.

Lemma all_finished_sorted a bs :
  tasks_of a bs = [] -> ordered bs -> Forall settled bs ->
  StronglySorted Z.le (flat bs).
Proof.
  revert a. induction bs as [|[l|l] bs IH]; intros a Ht Ho Hs; simpl in *.
  - constructor.
  - discriminate.
  - destruct Ho as [Hb Ho]. apply Forall_cons in Hs as [Hl Hs].
    apply StronglySorted_app_2; eauto.
Qed.

Lemma forks_only_app t1 t2 :
  forks_only t1 = true -> forks_only t2 = true ->
  forks_only (t1 ++ t2) = true.
Proof.
  intros H1 H2. remember (length t1) as n eqn:Hn.
  assert (Hle : (length t1 <= n)%nat) by lia. clear Hn.
  revert t1 H1 Hle. induction n as [|n IH]; intros t1 H1 Hle.
  - destruct t1; [auto|simpl in Hle; lia].
  - destruct t1 as [|[A L|] [|[|A1 p] [|[|A2 q] t1]]];
      simpl in *; try discriminate; auto.
    apply andb_true_iff in H1 as [Hc H1].
    rewrite Hc. simpl. apply IH; auto. lia.
Qed.

(** ** qSortPar: the inline branch and the fork branch *)

Section Parallel.

Variable cfg : config.
Variable sched : scheduler.

(** Below the cutoff (or on a range too short to partition) the
    parallel sorter is the sequential one, step for step. *)
Lemma qSortPar_inline fuel :
  forall st pre l post,
    heap st = pre ++ l ++ post -> len l <= INT_MAX ->
    len l < cutoff cfg \/ len l <= 1 ->
    qSortPar fuel cfg (len pre) (len l) st = qSort fuel (len pre) (len l) st.
Proof.
  induction fuel as [|fuel IH]; intros st pre l post Hh Hmax Hcut;
    [reflexivity|].
  simpl. rewrite Z.gtb_ltb.
  destruct (Z.ltb_spec 1 (len l)) as [Hl|Hl]; [|reflexivity].
  apply bind_ext_on. intros p st1 Hpart.
  destruct (partition_done _ _ _ _ _ _ _ Hh ltac:(lia) Hpart)
    as (l1 & l2 & pivot & -> & -> & Hperm & Hl1 & Hl2 & _).
  pose proof (len_split _ _ _ Hperm) as Hlen.
  destruct (Z.ltb_spec (len l) (cutoff cfg)) as [Hc|Hc]; [|lia].
  match goal with |- _ = bind _ _ ?s => set (st1 := s) end.
  assert (Hh1 : heap st1 = pre ++ l1 ++ (l2 ++ post)).
  { simpl. now rewrite <- app_assoc. }
  rewrite (bind_cong _ (qSort fuel (len pre) (len l1)) _ st1)
    by (apply (IH st1 pre l1 (l2 ++ post)); auto; lia).
  apply bind_ext_on. intros [] st2 Hq.
  destruct (qSort_done _ _ _ _ _ _ Hh1 ltac:(lia) Hq)
    as (l1' & tr & -> & Hperm1 & _).
  pose proof (len_perm _ _ Hperm1) as Hlen1.
  apply bind_ext_on. intros n s Hn.
  rewrite int_done in Hn by (unfold INT_MIN, INT_MAX in *; lia).
  injection Hn as <- <-.
  replace (len l - len l1) with (len l2) by lia.
  replace (len pre + len l1) with (len (pre ++ l1'))
    by (rewrite len_app; lia).
  apply (IH _ (pre ++ l1') l2 post);
    [simpl; now rewrite <- app_assoc|lia|lia].
Qed.

(** At or above the cutoff the call partitions, queues both halves
    and returns. *)
Lemma qSortPar_fork fuel st pre l post :
  heap st = pre ++ l ++ post -> 2 <= len l <= INT_MAX ->
  cutoff cfg <= len l ->
  len l + 3 <= Z.of_nat fuel ->
  exists l1 l2 pivot,
    qSortPar fuel cfg (len pre) (len l) st
    = Done (tt,
        {| heap := pre ++ (l1 ++ l2) ++ post;
           pool := pool st ++ [Task (len pre) (len l1);
                               Task (len pre + len l1) (len l2)];
           trace := trace st ++ [EvPartition (len pre) (len l);
                                 EvTask (len pre) (len l1);
                                 EvTask (len pre + len l1) (len l2)] |})
    /\ l ≡ₚ l1 ++ l2
    /\ 1 <= len l1 /\ 1 <= len l2
    /\ Forall (fun x => x <= pivot) l1
    /\ Forall (fun x => pivot <= x) l2.
Proof.
  intros Hh Hl Hcut Hf.
  destruct fuel as [|fuel]; [lia|].
  destruct (partition_spec pre post fuel st l Hh Hl)
    as (l1 & l2 & pivot & Hpart & Hperm & Hl1 & Hl2 & Hlow & Hhigh); [lia|].
  pose proof (len_split _ _ _ Hperm) as Hlen.
  exists l1, l2, pivot. split; [|auto].
  simpl. rewrite Z.gtb_ltb.
  destruct (Z.ltb_spec 1 (len l)); [|lia].
  rewrite (bind_done _ _ _ _ _ Hpart).
  destruct (Z.ltb_spec (len l) (cutoff cfg)); [lia|].
  unfold bind at 1. unfold spawn at 1.
  erewrite bind_done by int_ok.
  replace (len l - len l1) with (len l2) by lia.
  unfold spawn, log, set_pool. simpl.
  now rewrite <- !app_assoc.
Qed.

(** ** One call of qSortPar on a pending block *)

Lemma qSortPar_block fuel st B1 l B2 :
  heap st = flat B1 ++ l ++ flat B2 ->
  ordered (B1 ++ Pending l :: B2) ->
  len l <= INT_MAX -> len l + 3 <= Z.of_nat fuel ->
  exists st' new tr,
    qSortPar fuel cfg (len (flat B1)) (len l) st = Done (tt, st')
    /\ heap st' = flat (B1 ++ new ++ B2)
    /\ pool st' = pool st ++ tasks_of (len (flat B1)) new
    /\ trace st' = trace st ++ tr
    /\ ordered (B1 ++ new ++ B2)
    /\ Forall settled new
    /\ l ≡ₚ flat new
    /\ (weight new <= 2 * length l - 2)%nat
    /\ (cutoff cfg <= 0 -> forks_only tr = true).
Proof.
  intros Hh Hord Hmax Hf. pose proof (len_nonneg l) as Hnn.
  destruct (Z.le_gt_cases (len l) 1) as [Hshort|Hlong];
    [|destruct (Z.lt_ge_cases (len l) (cutoff cfg)) as [Hcut|Hcut]].
  - (* nothing to do *)
    exists st, [Finished l], [].
    rewrite (qSortPar_inline fuel st (flat B1) l (flat B2)) by auto.
    destruct fuel as [|fuel]; [lia|]. simpl.
    rewrite Z.gtb_ltb. destruct (Z.ltb_spec 1 (len l)); [lia|].
    rewrite !app_nil_r, flat_app. simpl.
    repeat split; auto.
    + apply (ordered_replace B1 (Pending l) B2 [Finished l]);
        auto using ordered_single.
      simpl. intros x. now rewrite app_nil_r.
    + repeat constructor. now apply short_sorted.
    + lia.
  - (* below the cutoff: sorted inline *)
    rewrite (qSortPar_inline fuel st (flat B1) l (flat B2)) by auto.
    destruct (qSort_spec fuel st (flat B1) l (flat B2) Hh Hmax Hf)
      as (l' & tr & Hrun & Hperm & Hsort & Htr).
    eexists _, [Finished l'], tr. split; [exact Hrun|].
    simpl. rewrite !app_nil_r, flat_app. simpl.
    repeat split; auto.
    + apply (ordered_replace B1 (Pending l) B2 [Finished l']);
        auto using ordered_single.
      simpl. intros x. rewrite app_nil_r. now rewrite Hperm.
    + lia.
    + lia.
  - (* at or above the cutoff: two new tasks *)
    destruct (qSortPar_fork fuel st (flat B1) l (flat B2) Hh)
      as (l1 & l2 & pivot & Hrun & Hperm & Hl1 & Hl2 & Hlow & Hhigh);
      [lia|lia|lia|].
    eexists _, [Pending l1; Pending l2],
      [EvPartition (len (flat B1)) (len l);
       EvTask (len (flat B1)) (len l1);
       EvTask (len (flat B1) + len l1) (len l2)].
    split; [exact Hrun|].
    simpl. rewrite flat_app. simpl. rewrite app_nil_r.
    repeat split; auto.
    + now rewrite <- app_assoc.
    + apply (ordered_replace B1 (Pending l) B2 [Pending l1; Pending l2]);
        auto.
      * split; [|apply ordered_single].
        intros x y Hx Hy. simpl in Hy. rewrite app_nil_r in Hy.
        rewrite Forall_forall in Hlow, Hhigh.
        specialize (Hlow x Hx). specialize (Hhigh y Hy). lia.
      * simpl. intros x. rewrite app_nil_r. now rewrite Hperm.
    + assert (length l = length l1 + length l2)%nat.
      { rewrite (Permutation_length Hperm). apply length_app. }
      unfold len in *. lia.
    + intros _. simpl. rewrite !Z.eqb_refl, andb_true_r. simpl.
      apply Z.eqb_eq.
      pose proof (len_split _ _ _ Hperm).
      lia.
Qed.

(** ** The task loop drains the pool and leaves the array sorted *)

Lemma run_tasks_nil k step st :
  pool st = [] -> run_tasks (S k) cfg sched step st = Done (tt, st).
Proof. intros H. simpl. now rewrite H. Qed.

Lemma run_tasks_pick k step st :
  pool st <> [] ->
  run_tasks (S k) cfg sched step st
  = bind (take_task (sched (thread_count cfg) step (pool st)
                       mod length (pool st))%nat)
      (fun t => bind (qSortPar k cfg (t_base t) (t_len t))
                  (fun _ => run_tasks k cfg sched (S step))) st.
Proof.
  intros H. unfold run_tasks at 1. fold run_tasks.
  destruct (pool st) eqn:E; [congruence|reflexivity].
Qed.

Lemma Inv_step fuel st bs n t :
  Inv st bs -> pool st !! n = Some t ->
  len (flat bs) <= INT_MAX ->
  (length (flat bs) + 3 <= fuel)%nat ->
  exists st' bs' tr,
    qSortPar fuel cfg (t_base t) (t_len t)
      (set_pool (delete n (pool st)) st) = Done (tt, st')
    /\ Inv st' bs'
    /\ flat bs ≡ₚ flat bs'
    /\ (weight bs' < weight bs)%nat
    /\ trace st' = trace st ++ tr
    /\ (cutoff cfg <= 0 -> forks_only tr = true).
Proof.
  intros (Hheap & Hpool & Hord & Hset) Hn Hmax Hf.
  assert (Ht : t ∈ tasks_of 0 bs).
  { rewrite <- Hpool. eapply list_elem_of_lookup_2; eauto. }
  destruct (tasks_of_elem _ _ _ Ht) as (B1 & l & B2 & -> & ->).
  simpl t_base. simpl t_len. rewrite Z.add_0_l.
  rewrite flat_app in Hheap, Hmax, Hf. simpl in Hheap, Hmax, Hf.
  rewrite !len_app in Hmax. rewrite !length_app in Hf.
  pose proof (len_nonneg (flat B1)). pose proof (len_nonneg (flat B2)).
  apply Forall_app in Hset as [Hset1 Hset2].
  apply Forall_cons in Hset2 as [Hl Hset2]. simpl in Hl.
  set (st1 := set_pool (delete n (pool st)) st).
  destruct (qSortPar_block fuel st1 B1 l B2)
    as (st' & new & tr & Hrun & Hheap' & Hpool' & Htr & Hord' & Hset'
        & Hperm & Hw & Hforks); auto; try (unfold len in *; lia).
  exists st', (B1 ++ new ++ B2), tr.
  assert (Hlen : len (flat new) = len l).
  { unfold len. now rewrite (Permutation_length Hperm). }
  split; [exact Hrun|]. split; [|split; [|split; [|split]]]; auto.
  - split; [auto|]. split; [|split; auto].
    + rewrite Hpool'. simpl.
      rewrite tasks_of_app in Hpool. simpl in Hpool.
      rewrite (delete_Permutation _ _ _ Hn) in Hpool.
      apply Permutation_cons_app_inv in Hpool.
      rewrite Hpool, !tasks_of_app, Hlen, !Z.add_0_l.
      rewrite <- app_assoc. apply Permutation_app_head.
      apply Permutation_app_comm.
    + repeat (apply Forall_app; split); auto.
  - rewrite !flat_app. simpl. now rewrite Hperm.
  - rewrite !weight_app. simpl. unfold len in Hl. lia.
Qed.

Lemma run_tasks_spec fuel :
  forall st bs step,
    Inv st bs -> len (flat bs) <= INT_MAX ->
    (weight bs + length (flat bs) + 4 <= fuel)%nat ->
    exists st' tr,
      run_tasks fuel cfg sched step st = Done (tt, st')
      /\ pool st' = []
      /\ flat bs ≡ₚ heap st'
      /\ StronglySorted Z.le (heap st')
      /\ trace st' = trace st ++ tr
      /\ (cutoff cfg <= 0 -> forks_only tr = true).
Proof.
  induction fuel as [|fuel IH]; intros st bs step HInv Hmax Hf; [lia|].
  assert (Hcase : pool st = [] \/ pool st <> [])
    by (destruct (pool st); [left|right]; congruence).
  destruct Hcase as [Hnil|Hne].
  - rewrite run_tasks_nil by auto.
    destruct HInv as (Hheap & Hpool & Hord & Hset).
    rewrite Hnil in Hpool. apply Permutation_nil in Hpool.
    exists st, []. rewrite app_nil_r, Hheap.
    repeat split; eauto using all_finished_sorted.
  - rewrite run_tasks_pick by auto.
    set (n := (sched (thread_count cfg) step (pool st)
                 mod length (pool st))%nat).
    assert (Hn : (n < length (pool st))%nat).
    { apply Nat.mod_upper_bound. destruct (pool st); simpl; congruence. }
    destruct (lookup_lt_is_Some_2 _ _ Hn) as [t Ht].
    erewrite bind_done by (unfold take_task; rewrite Ht; reflexivity).
    destruct (Inv_step fuel st bs n t HInv Ht Hmax)
      as (st1 & bs1 & tr1 & Hrun1 & HInv1 & Hperm1 & Hw1 & Htr1 & Hf1);
      [lia|].
    rewrite (bind_done _ _ _ _ _ Hrun1).
    assert (Hlen1 : length (flat bs1) = length (flat bs))
      by now rewrite (Permutation_length Hperm1).
    destruct (IH st1 bs1 (S step) HInv1)
      as (st2 & tr2 & Hrun2 & Hpool2 & Hperm2 & Hsort2 & Htr2 & Hf2).
    { unfold len in *. now rewrite Hlen1. }
    { lia. }
    exists st2, (tr1 ++ tr2). rewrite Hrun2, Htr2, Htr1, app_assoc.
    repeat split; auto.
    + now rewrite Hperm1.
    + intros Hc. apply forks_only_app; auto.
Qed.

(** ** The parallel region as a whole *)

Lemma sort_par_spec fuel l :
  len l <= INT_MAX -> (3 * length l + 4 <= fuel)%nat ->
  exists st',
    sort_par fuel cfg sched l = Done (tt, st')
    /\ pool st' = []
    /\ l ≡ₚ heap st'
    /\ StronglySorted Z.le (heap st')
    /\ (cutoff cfg <= 0 -> forks_only (trace st') = true).
Proof.
  intros Hmax Hf. unfold sort_par, parallel_single.
  destruct (qSortPar_block fuel (init l) [] l [])
    as (st1 & new & tr1 & Hrun1 & Hheap1 & Hpool1 & Htr1 & Hord1 & Hset1
        & Hperm1 & Hw1 & Hf1).
  { simpl. now rewrite app_nil_r. }
  { apply ordered_single. }
  { auto. }
  { unfold len. lia. }
  change (len (flat [])) with 0 in *. simpl in Hheap1, Hpool1, Htr1, Hord1.
  rewrite app_nil_r in Hheap1, Hord1.
  rewrite (bind_done _ _ _ _ _ Hrun1).
  assert (Hlen1 : length (flat new) = length l)
    by now rewrite (Permutation_length Hperm1).
  destruct (run_tasks_spec fuel st1 new 0%nat)
    as (st2 & tr2 & Hrun2 & Hpool2 & Hperm2 & Hsort2 & Htr2 & Hf2).
  { repeat split; auto. now rewrite Hpool1. }
  { unfold len in *. now rewrite Hlen1. }
  { lia. }
  exists st2. rewrite Hrun2, Htr2, Htr1.
  repeat split; auto.
  - now rewrite Hperm1.
  - intros Hc. apply forks_only_app; auto.
Qed.

End Parallel.

(** ** Reading the array through a window *)

Lemma window_lookup (pre l post : list Z) (k : nat) :
  (k < length l)%nat -> (pre ++ l ++ post) !! (length pre + k)%nat = l !! k.
Proof.
  intros Hk. rewrite lookup_app_r by lia.
  replace (length pre + k - length pre)%nat with k by lia.
  now apply lookup_app_l.
Qed.

Lemma window_frame (pre l l' post : list Z) (k : nat) :
  length l' = length l ->
  (k < length pre \/ length pre + length l <= k)%nat ->
  (pre ++ l' ++ post) !! k = (pre ++ l ++ post) !! k.
Proof.
  intros Hlen [Hk|Hk].
  - now rewrite !lookup_app_l by lia.
  - rewrite !lookup_app_r by lia. now rewrite Hlen.
Qed.

Lemma partition_total fuel st pre l post :
  heap st = pre ++ l ++ post -> 2 <= len l <= INT_MAX ->
  len l + 2 <= Z.of_nat fuel ->
  exists p st', partition fuel (len pre) (len l) st = Done (p, st').
Proof.
  intros Hh Hl Hf.
  destruct (partition_spec pre post fuel st l Hh Hl Hf)
    as (l1 & l2 & pivot & Hrun & _).
  eauto.
Qed.

(** * The claims *)

(** C1. For every int array, the sequential sorter, and the parallel
    sorter under every configuration with thread_count >= 1 and
    cutoff >= 1 and every order in which the runtime starts the tasks,
    finish and leave a permutation of the input in non-decreasing
    order. *)
Theorem sort_correct (l : list Z) (cfg : config) (sched : scheduler)
    (fuel : nat) :
  len l <= INT_MAX ->
  1 <= thread_count cfg -> 1 <= cutoff cfg ->
  (3 * length l + 4 <= fuel)%nat ->
  (exists l', result (sort_seq fuel l) = Some l'
              /\ Permutation l l' /\ Sorted Z.le l')
  /\ (exists l', result (sort_par fuel cfg sched l) = Some l'
                 /\ Permutation l l' /\ Sorted Z.le l').
Proof.
  intros Hmax _ _ Hf. split.
  - destruct (sort_seq_spec fuel l Hmax) as (st & Hrun & _ & Hperm & Hsort & _);
      [lia|].
    exists (heap st). rewrite Hrun.
    auto using StronglySorted_Sorted.
  - destruct (sort_par_spec cfg sched fuel l Hmax Hf)
      as (st & Hrun & _ & Hperm & Hsort & _).
    exists (heap st). rewrite Hrun.
    auto using StronglySorted_Sorted.
Qed.

Lemma sort_correct_witness :
  (exists l', result (sort_seq 22 [5; 3; 8; 1; 9; 2]) = Some l'
              /\ Permutation [5; 3; 8; 1; 9; 2] l' /\ Sorted Z.le l')
  /\ (exists l',
        result (sort_par 22 (Config 4 1) (fun _ n _ => n) [5; 3; 8; 1; 9; 2])
        = Some l'
        /\ Permutation [5; 3; 8; 1; 9; 2] l' /\ Sorted Z.le l').
Proof.
  apply (sort_correct [5; 3; 8; 1; 9; 2] (Config 4 1) (fun _ n _ => n) 22);
    [vm_compute; discriminate|simpl; lia|simpl; lia|simpl; lia].
Defined.

(** C2. On every range of length L > 1 partition returns a split index
    p with 0 < p < L, whatever the values are (duplicates of the pivot
    included): [0,p) and [p,L) are non-empty, strictly shorter than the
    range, disjoint, and together cover it. *)
Theorem partition_progress fuel st pre l post :
  heap st = pre ++ l ++ post -> 2 <= len l <= INT_MAX ->
  (len l + 2 <= Z.of_nat fuel ->
   exists p st', partition fuel (len pre) (len l) st = Done (p, st'))
  /\ (forall p st',
        partition fuel (len pre) (len l) st = Done (p, st') ->
        0 < p < len l
        /\ p < len l /\ len l - p < len l
        /\ (forall k, 0 <= k < len l <->
                      (0 <= k < p \/ p <= k < p + (len l - p)))
        /\ (forall k, ~ (0 <= k < p /\ p <= k < p + (len l - p)))).
Proof.
  intros Hh Hl. split; [intros Hf; eapply partition_total; eauto|].
  intros p st' Hrun.
  destruct (partition_done _ _ _ _ _ _ _ Hh Hl Hrun)
    as (l1 & l2 & pivot & -> & _ & Hperm & Hl1 & Hl2 & _).
  pose proof (len_split _ _ _ Hperm) as Hlen.
  repeat split; try lia.
Qed.

Lemma partition_progress_witness :
  (len [4; 4; 4; 4] + 2 <= Z.of_nat 6 ->
   exists p st',
     partition 6 (len [7]) (len [4; 4; 4; 4])
       (init ([7] ++ [4; 4; 4; 4] ++ [0])) = Done (p, st'))
  /\ (forall p st',
        partition 6 (len [7]) (len [4; 4; 4; 4])
          (init ([7] ++ [4; 4; 4; 4] ++ [0])) = Done (p, st') ->
        0 < p < len [4; 4; 4; 4]
        /\ p < len [4; 4; 4; 4] /\ len [4; 4; 4; 4] - p < len [4; 4; 4; 4]
        /\ (forall k, 0 <= k < len [4; 4; 4; 4] <->
                      (0 <= k < p \/ p <= k < p + (len [4; 4; 4; 4] - p)))
        /\ (forall k,
              ~ (0 <= k < p /\ p <= k < p + (len [4; 4; 4; 4] - p)))).
Proof.
  apply (partition_progress 6 (init ([7] ++ [4; 4; 4; 4] ++ [0]))
           [7] [4; 4; 4; 4] [0]);
    [reflexivity|vm_compute; split; discriminate].
Defined.

(** C3. Both sorters terminate on every input: a recursion budget
    linear in the array length is always enough (each nested call of
    qSort or qSortPar spends one unit, so the budget bounds the
    recursion depth), for every configuration and task order.  The
    all-duplicate array [4,4,4,4] is the instance of the witness. *)
Theorem sorters_terminate (l : list Z) (cfg : config) (sched : scheduler)
    (fuel : nat) :
  len l <= INT_MAX ->
  (3 * length l + 4 <= fuel)%nat ->
  (exists st, sort_seq fuel l = Done (tt, st))
  /\ (exists st, sort_par fuel cfg sched l = Done (tt, st)).
Proof.
  intros Hmax Hf. split.
  - destruct (sort_seq_spec fuel l Hmax) as (st & Hrun & _); [lia|]. eauto.
  - destruct (sort_par_spec cfg sched fuel l Hmax Hf) as (st & Hrun & _).
    eauto.
Qed.

Lemma sorters_terminate_witness :
  (exists st, sort_seq 16 [4; 4; 4; 4] = Done (tt, st))
  /\ (exists st,
        sort_par 16 (Config 2 2) (fun _ _ _ => 0%nat) [4; 4; 4; 4]
        = Done (tt, st)).
Proof.
  apply (sorters_terminate [4; 4; 4; 4] (Config 2 2) (fun _ _ _ => 0%nat) 16);
    [vm_compute; discriminate|simpl; lia].
Defined.

(** C4. After partition returns split index p on a range of length
    L > 1, every element at a range index below p is at most every
    element at a range index from p on. *)
Theorem partition_separates fuel st pre l post :
  heap st = pre ++ l ++ post -> 2 <= len l <= INT_MAX ->
  (len l + 2 <= Z.of_nat fuel ->
   exists p st', partition fuel (len pre) (len l) st = Done (p, st'))
  /\ (forall p st' (a b : nat) x y,
        partition fuel (len pre) (len l) st = Done (p, st') ->
        heap st' !! (length pre + a)%nat = Some x ->
        heap st' !! (length pre + b)%nat = Some y ->
        Z.of_nat a < p -> p <= Z.of_nat b < len l ->
        x <= y).
Proof.
  intros Hh Hl. split; [intros Hf; eapply partition_total; eauto|].
  intros p st' a b x y Hrun Hx Hy Ha Hb.
  destruct (partition_done _ _ _ _ _ _ _ Hh Hl Hrun)
    as (l1 & l2 & pivot & -> & -> & Hperm & Hl1 & Hl2 & Hlow & Hhigh).
  pose proof (len_split _ _ _ Hperm) as Hlen.
  simpl in Hx, Hy. unfold len in *.
  rewrite window_lookup in Hx, Hy by (rewrite length_app; lia).
  rewrite lookup_app_l in Hx by lia.
  rewrite lookup_app_r in Hy by lia.
  rewrite Forall_lookup in Hlow, Hhigh.
  specialize (Hlow _ _ Hx). specialize (Hhigh _ _ Hy). simpl in *. lia.
Qed.

(** The pivot need not end at the split: on [3,1,2] the pivot 1 ends
    at index 0 and the split is 1. *)
Example pivot_off_boundary :
  partition 5 0 3 (init [3; 1; 2])
  = Done (1, {| heap := [1; 3; 2]; pool := [];
                trace := [EvPartition 0 3] |}).
Proof. reflexivity. Qed.

Lemma partition_separates_witness :
  (len [3; 1; 2] + 2 <= Z.of_nat 5 ->
   exists p st',
     partition 5 (len [9]) (len [3; 1; 2]) (init ([9] ++ [3; 1; 2] ++ [0]))
     = Done (p, st'))
  /\ (forall p st' (a b : nat) x y,
        partition 5 (len [9]) (len [3; 1; 2]) (init ([9] ++ [3; 1; 2] ++ [0]))
        = Done (p, st') ->
        heap st' !! (length [9] + a)%nat = Some x ->
        heap st' !! (length [9] + b)%nat = Some y ->
        Z.of_nat a < p -> p <= Z.of_nat b < len [3; 1; 2] ->
        x <= y).
Proof.
  apply (partition_separates 5 (init ([9] ++ [3; 1; 2] ++ [0]))
           [9] [3; 1; 2] [0]);
    [reflexivity|vm_compute; split; discriminate].
Defined.

(** C5, as the code has it.  The test in qSortPar is [length < cutoff]:
    an array whose length is strictly below the cutoff (or too short to
    be partitioned at all) is sorted by exactly the run of qSort, with
    the same log of partition calls and no task creation.  An array
    whose length equals the cutoff is forked. *)
Theorem qSortPar_sequential_below_cutoff (l : list Z) (cfg : config)
    (sched : scheduler) (fuel : nat) :
  len l <= INT_MAX ->
  len l < cutoff cfg \/ len l <= 1 ->
  sort_par fuel cfg sched l = sort_seq fuel l
  /\ (forall st, sort_par fuel cfg sched l = Done (tt, st) ->
                 forallb is_partition (trace st) = true).
Proof.
  intros Hmax Hcut.
  assert (Hh : heap (init l) = [] ++ l ++ []).
  { simpl. now rewrite app_nil_r. }
  assert (Heq : sort_par fuel cfg sched l = sort_seq fuel l).
  { pose proof (qSortPar_inline cfg fuel (init l) [] l [] Hh Hmax Hcut)
      as Hin.
    change (len []) with 0 in Hin.
    unfold sort_par, sort_seq, parallel_single, bind. rewrite Hin.
    destruct (qSort fuel 0 (len l) (init l)) as [[[] st]| |] eqn:Hrun; auto.
    destruct (qSort_done fuel (init l) [] l [] st Hh Hmax Hrun)
      as (l' & tr & -> & _).
    destruct fuel as [|fuel]; [discriminate|].
    now apply run_tasks_nil. }
  split; [exact Heq|].
  intros st Hrun. rewrite Heq in Hrun.
  destruct (qSort_done fuel (init l) [] l [] st Hh Hmax Hrun)
    as (l' & tr & -> & _ & _ & Htr).
  exact Htr.
Qed.

Lemma qSortPar_sequential_below_cutoff_witness :
  sort_par 9 (Config 2 4) (fun _ _ _ => 0%nat) [3; 1; 2]
  = sort_seq 9 [3; 1; 2]
  /\ (forall st,
        sort_par 9 (Config 2 4) (fun _ _ _ => 0%nat) [3; 1; 2]
        = Done (tt, st) ->
        forallb is_partition (trace st) = true).
Proof.
  apply (qSortPar_sequential_below_cutoff [3; 1; 2] (Config 2 4)
           (fun _ _ _ => 0%nat) 9);
    [vm_compute; discriminate|left; reflexivity].
Defined.

(** C5 as stated fails when the length equals the cutoff: on [2,1] with
    cutoff 2 the parallel sorter creates two tasks, the sequential one
    logs the partition call alone. *)
Lemma qSortPar_forks_at_cutoff :
  len [2; 1] <= cutoff (Config 1 2)
  /\ sort_par 10 (Config 1 2) (fun _ _ _ => 0%nat) [2; 1]
     = Done (tt, {| heap := [1; 2]; pool := [];
                    trace := [EvPartition 0 2; EvTask 0 1; EvTask 1 1] |})
  /\ sort_seq 10 [2; 1]
     = Done (tt, {| heap := [1; 2]; pool := [];
                    trace := [EvPartition 0 2] |})
  /\ sort_par 10 (Config 1 2) (fun _ _ _ => 0%nat) [2; 1] <> sort_seq 10 [2; 1]
  /\ forallb is_partition [EvPartition 0 2; EvTask 0 1; EvTask 1 1] = false.
Proof.
  split; [vm_compute; discriminate|].
  split; [reflexivity|]. split; [reflexivity|].
  split; [vm_compute; discriminate|reflexivity].
Qed.

(** C6. The array left by the parallel sorter is the same for every
    configuration with thread_count >= 1 and cutoff >= 1 and every task
    order, and it is the array left by the sequential sorter. *)
Theorem result_independent_of_config (l : list Z) (cfg cfg' : config)
    (sched sched' : scheduler) (fuel fuel' fuel'' : nat) :
  len l <= INT_MAX ->
  1 <= thread_count cfg -> 1 <= cutoff cfg ->
  1 <= thread_count cfg' -> 1 <= cutoff cfg' ->
  (3 * length l + 4 <= fuel)%nat ->
  (3 * length l + 4 <= fuel')%nat ->
  (length l + 3 <= fuel'')%nat ->
  exists l',
    result (sort_par fuel cfg sched l) = Some l'
    /\ result (sort_par fuel' cfg' sched' l) = Some l'
    /\ result (sort_seq fuel'' l) = Some l'.
Proof.
  intros Hmax _ _ _ _ Hf Hf' Hf''.
  destruct (sort_par_spec cfg sched fuel l Hmax Hf)
    as (st1 & Hrun1 & _ & Hperm1 & Hsort1 & _).
  destruct (sort_par_spec cfg' sched' fuel' l Hmax Hf')
    as (st2 & Hrun2 & _ & Hperm2 & Hsort2 & _).
  destruct (sort_seq_spec fuel'' l Hmax Hf'')
    as (st3 & Hrun3 & _ & Hperm3 & Hsort3 & _).
  exists (heap st1). rewrite Hrun1, Hrun2, Hrun3. simpl.
  repeat split; f_equal; apply sorted_unique; auto.
  - now rewrite <- Hperm2.
  - now rewrite <- Hperm3.
Qed.

Lemma result_independent_of_config_witness :
  exists l',
    result (sort_par 19 (Config 4 1) (fun _ n _ => n) [9; 8; 7; 6; 5])
    = Some l'
    /\ result (sort_par 25 (Config 1 3) (fun _ _ _ => 0%nat) [9; 8; 7; 6; 5])
       = Some l'
    /\ result (sort_seq 8 [9; 8; 7; 6; 5]) = Some l'.
Proof.
  apply (result_independent_of_config [9; 8; 7; 6; 5]
           (Config 4 1) (Config 1 3)
           (fun _ n _ => n) (fun _ _ _ => 0%nat) 19 25 8);
    try (vm_compute; discriminate); simpl; lia.
Defined.

(** C8. An array already in non-decreasing order comes back with every
    element unchanged, from the sequential sorter and from the
    parallel one under every configuration with thread_count >= 1 and
    cutoff >= 1; arrays of length 0 and 1 are such arrays. *)
Theorem sort_idempotent (l : list Z) (cfg : config) (sched : scheduler)
    (fuel : nat) :
  len l <= INT_MAX ->
  Sorted Z.le l ->
  1 <= thread_count cfg -> 1 <= cutoff cfg ->
  (3 * length l + 4 <= fuel)%nat ->
  result (sort_seq fuel l) = Some l
  /\ result (sort_par fuel cfg sched l) = Some l.
Proof.
  intros Hmax Hsorted _ _ Hf.
  apply Sorted_StronglySorted in Hsorted; [|intros x y z; lia].
  destruct (sort_seq_spec fuel l Hmax)
    as (st1 & Hrun1 & _ & Hperm1 & Hsort1 & _); [lia|].
  destruct (sort_par_spec cfg sched fuel l Hmax Hf)
    as (st2 & Hrun2 & _ & Hperm2 & Hsort2 & _).
  rewrite Hrun1, Hrun2. simpl.
  split; f_equal; symmetry; now apply sorted_unique.
Qed.

Lemma sort_idempotent_witness :
  result (sort_seq 16 [1; 2; 2; 5]) = Some [1; 2; 2; 5]
  /\ result (sort_par 16 (Config 3 2) (fun _ n _ => n) [1; 2; 2; 5])
     = Some [1; 2; 2; 5].
Proof.
  apply (sort_idempotent [1; 2; 2; 5] (Config 3 2) (fun _ n _ => n) 16);
    [vm_compute; discriminate|repeat constructor; lia
    |simpl; lia|simpl; lia|simpl; lia].
Defined.

(** The two shortest arrays, as main would pass them. *)
Example sort_empty :
  result (sort_seq 4 []) = Some []
  /\ result (sort_par 4 (Config 2 1) (fun _ n _ => n) []) = Some [].
Proof. split; reflexivity. Qed.

Example sort_singleton :
  result (sort_seq 7 [7]) = Some [7]
  /\ result (sort_par 7 (Config 2 1) (fun _ n _ => n) [7]) = Some [7].
Proof. split; reflexivity. Qed.

(** C9. partition on a range of length L > 1 leaves every array
    element outside the range as it was, and the range itself holds a
    permutation of its former contents. *)
Theorem partition_frame fuel st pre l post :
  heap st = pre ++ l ++ post -> 2 <= len l <= INT_MAX ->
  (len l + 2 <= Z.of_nat fuel ->
   exists p st', partition fuel (len pre) (len l) st = Done (p, st'))
  /\ (forall p st',
        partition fuel (len pre) (len l) st = Done (p, st') ->
        exists l',
          heap st' = pre ++ l' ++ post
          /\ Permutation l l'
          /\ (forall k : nat,
                (k < length pre \/ length pre + length l <= k)%nat ->
                heap st' !! k = heap st !! k)).
Proof.
  intros Hh Hl. split; [intros Hf; eapply partition_total; eauto|].
  intros p st' Hrun.
  destruct (partition_done _ _ _ _ _ _ _ Hh Hl Hrun)
    as (l1 & l2 & pivot & -> & -> & Hperm & _).
  exists (l1 ++ l2). simpl. repeat split; auto.
  intros k Hk. rewrite Hh. apply window_frame; auto.
  symmetry. apply (Permutation_length Hperm).
Qed.

Lemma partition_frame_witness :
  (len [3; 1; 2] + 2 <= Z.of_nat 5 ->
   exists p st',
     partition 5 (len [9]) (len [3; 1; 2]) (init ([9] ++ [3; 1; 2] ++ [0]))
     = Done (p, st'))
  /\ (forall p st',
        partition 5 (len [9]) (len [3; 1; 2]) (init ([9] ++ [3; 1; 2] ++ [0]))
        = Done (p, st') ->
        exists l',
          heap st' = [9] ++ l' ++ [0]
          /\ Permutation [3; 1; 2] l'
          /\ (forall k : nat,
                (k < length [9] \/ length [9] + length [3; 1; 2] <= k)%nat ->
                heap st' !! k = heap (init ([9] ++ [3; 1; 2] ++ [0])) !! k)).
Proof.
  apply (partition_frame 5 (init ([9] ++ [3; 1; 2] ++ [0]))
           [9] [3; 1; 2] [0]);
    [reflexivity|vm_compute; split; discriminate].
Defined.

(** C10. On a range of length L >= 2 no access of partition leaves the
    range: run on a memory that is exactly the range, where any index
    outside [0, L-1] faults, partition never faults, at any fuel, and
    returns once the fuel covers the two cursors' travel.  The same
    holds inside any larger array. *)
Theorem partition_in_bounds fuel st pre l post :
  heap st = pre ++ l ++ post -> 2 <= len l <= INT_MAX ->
  partition fuel 0 (len l) (set_heap l st) <> Fault
  /\ partition fuel (len pre) (len l) st <> Fault
  /\ (len l + 2 <= Z.of_nat fuel ->
      exists p st', partition fuel 0 (len l) (set_heap l st) = Done (p, st')).
Proof.
  intros Hh Hl.
  assert (Hh0 : heap (set_heap l st) = [] ++ l ++ []).
  { simpl. now rewrite app_nil_r. }
  split; [|split].
  - apply (partition_no_fault fuel (set_heap l st) [] l [] Hh0 Hl).
  - now apply (partition_no_fault fuel st pre l post).
  - intros Hf. apply (partition_total fuel (set_heap l st) [] l [] Hh0 Hl Hf).
Qed.

Lemma partition_in_bounds_witness :
  partition 6 0 (len [4; 4; 4; 4])
    (set_heap [4; 4; 4; 4] (init ([7] ++ [4; 4; 4; 4] ++ [0]))) <> Fault
  /\ partition 6 (len [7]) (len [4; 4; 4; 4])
       (init ([7] ++ [4; 4; 4; 4] ++ [0])) <> Fault
  /\ (len [4; 4; 4; 4] + 2 <= Z.of_nat 6 ->
      exists p st',
        partition 6 0 (len [4; 4; 4; 4])
          (set_heap [4; 4; 4; 4] (init ([7] ++ [4; 4; 4; 4] ++ [0])))
        = Done (p, st')).
Proof.
  apply (partition_in_bounds 6 (init ([7] ++ [4; 4; 4; 4] ++ [0]))
           [7] [4; 4; 4; 4] [0]);
    [reflexivity|vm_compute; split; discriminate].
Defined.

(** * Further properties of the code *)

Lemma bind_inv {A B} (m : M A) (f : A -> M B) st b st' :
  bind m f st = Done (b, st') ->
  exists a s, m st = Done (a, s) /\ f a s = Done (b, st').
Proof.
  unfold bind. destruct (m st) as [[a s]| |]; try discriminate. eauto.
Qed.

Lemma ssorted_lookup (R : Z -> Z -> Prop) (l : list Z) (a b : nat) x y :
  StronglySorted R l -> l !! a = Some x -> l !! b = Some y ->
  (a < b)%nat -> R x y.
Proof.
  intros Hs. revert a b. induction Hs as [|z l Hs IH Hz];
    intros [|a] [|b] Ha Hb Hab; simpl in *; try discriminate; try lia.
  - injection Ha as <-. eapply Forall_lookup_1; eauto.
  - apply (IH a b); auto. lia.
Qed.

(** X1. qSort called on a slice of a larger array sorts that slice in
    place and leaves the rest of the array, and the task pool, as they
    were. *)
Theorem qSort_subrange fuel st pre l post :
  heap st = pre ++ l ++ post -> len l <= INT_MAX ->
  len l + 3 <= Z.of_nat fuel ->
  exists l' st',
    qSort fuel (len pre) (len l) st = Done (tt, st')
    /\ heap st' = pre ++ l' ++ post
    /\ Permutation l l' /\ Sorted Z.le l'
    /\ pool st' = pool st.
Proof.
  intros Hh Hmax Hf.
  destruct (qSort_spec fuel st pre l post Hh Hmax Hf)
    as (l' & tr & Hrun & Hperm & Hsort & _).
  eexists l', _. split; [exact Hrun|]. simpl.
  auto using StronglySorted_Sorted.
Qed.

Lemma qSort_subrange_witness :
  exists l' st',
    qSort 6 (len [9; 8]) (len [3; 1; 2]) (init ([9; 8] ++ [3; 1; 2] ++ [0]))
    = Done (tt, st')
    /\ heap st' = [9; 8] ++ l' ++ [0]
    /\ Permutation [3; 1; 2] l' /\ Sorted Z.le l'
    /\ pool st' = pool (init ([9; 8] ++ [3; 1; 2] ++ [0])).
Proof.
  apply (qSort_subrange 6 (init ([9; 8] ++ [3; 1; 2] ++ [0]))
           [9; 8] [3; 1; 2] [0]);
    [reflexivity|vm_compute; discriminate|vm_compute; discriminate].
Defined.

(** X2. The fork branch of qSortPar does not sort: on a range of
    length L >= 2 that is not below the cutoff the call partitions the
    range, creates exactly two tasks, for the adjacent non-empty halves
    [A, A+p) and [A+p, A+L), and returns with the range only split
    around p. *)
Theorem fork_splits_range cfg fuel st pre l post :
  heap st = pre ++ l ++ post -> 2 <= len l <= INT_MAX ->
  cutoff cfg <= len l ->
  len l + 3 <= Z.of_nat fuel ->
  exists p l',
    qSortPar fuel cfg (len pre) (len l) st
    = Done (tt,
        {| heap := pre ++ l' ++ post;
           pool := pool st ++ [Task (len pre) p;
                               Task (len pre + p) (len l - p)];
           trace := trace st ++ [EvPartition (len pre) (len l);
                                 EvTask (len pre) p;
                                 EvTask (len pre + p) (len l - p)] |})
    /\ 0 < p < len l
    /\ Permutation l l'
    /\ Forall (fun x => Forall (fun y => x <= y) (drop (Z.to_nat p) l'))
         (take (Z.to_nat p) l').
Proof.
  intros Hh Hl Hcut Hf.
  destruct (qSortPar_fork cfg fuel st pre l post Hh Hl Hcut Hf)
    as (l1 & l2 & pivot & Hrun & Hperm & Hl1 & Hl2 & Hlow & Hhigh).
  pose proof (len_split _ _ _ Hperm) as Hlen.
  exists (len l1), (l1 ++ l2).
  replace (len l - len l1) with (len l2) by lia.
  split; [exact Hrun|]. split; [lia|]. split; [exact Hperm|].
  unfold len. rewrite Nat2Z.id, take_app_length, drop_app_length.
  rewrite Forall_forall in Hlow, Hhigh.
  apply Forall_forall. intros x Hx. apply Forall_forall. intros y Hy.
  specialize (Hlow x Hx). specialize (Hhigh y Hy). lia.
Qed.

Lemma fork_splits_range_witness :
  exists p l',
    qSortPar 7 (Config 2 3) (len [9]) (len [4; 1; 3; 2])
      (init ([9] ++ [4; 1; 3; 2] ++ [0]))
    = Done (tt,
        {| heap := [9] ++ l' ++ [0];
           pool := pool (init ([9] ++ [4; 1; 3; 2] ++ [0]))
                   ++ [Task (len [9]) p;
                       Task (len [9] + p) (len [4; 1; 3; 2] - p)];
           trace := trace (init ([9] ++ [4; 1; 3; 2] ++ [0]))
                    ++ [EvPartition (len [9]) (len [4; 1; 3; 2]);
                        EvTask (len [9]) p;
                        EvTask (len [9] + p) (len [4; 1; 3; 2] - p)] |})
    /\ 0 < p < len [4; 1; 3; 2]
    /\ Permutation [4; 1; 3; 2] l'
    /\ Forall (fun x => Forall (fun y => x <= y) (drop (Z.to_nat p) l'))
         (take (Z.to_nat p) l').
Proof.
  apply (fork_splits_range (Config 2 3) 7
           (init ([9] ++ [4; 1; 3; 2] ++ [0])) [9] [4; 1; 3; 2] [0]);
    [reflexivity|vm_compute; split; discriminate
    |vm_compute; discriminate|vm_compute; discriminate].
Defined.

(** X3. partition needs two elements: on a range of length 1 it
    returns split index 0 and changes nothing, so the split makes no
    progress; the test [length > 1] in the callers is what keeps it
    away from such ranges. *)
Theorem partition_single fuel st pre x post :
  heap st = pre ++ [x] ++ post -> (2 <= fuel)%nat ->
  partition fuel (len pre) 1 st
  = Done (0, log (EvPartition (len pre) 1) st).
Proof.
  intros Hh Hf. destruct fuel as [|[|fuel]]; try lia.
  set (st0 := log (EvPartition (len pre) 1) st).
  assert (Hrd : rd (len pre + 0) st0 = Done (x, st0))
    by (apply (rd_window pre post st0 [x]); auto; lia).
  unfold partition.
  erewrite (bind_done (emit _) _ st tt st0) by reflexivity.
  change (Z.quot 1 2) with 0.
  erewrite bind_done by (apply int_done; unfold INT_MIN, INT_MAX; lia).
  rewrite (bind_done _ _ _ _ _ Hrd).
  erewrite bind_done by (apply int_done; unfold INT_MIN, INT_MAX; lia).
  change (1 - 1) with 0.
  assert (Hmax : len [x] <= INT_MAX) by (unfold len, INT_MAX; simpl; lia).
  destruct (scan_up_spec pre post (S fuel) st0 [x] x 0 0%nat x)
    as (i1 & w1 & Hup & Hi1 & _);
    [exact Hh|exact Hmax|lia|reflexivity|lia|lia|].
  destruct (scan_down_spec pre post (S fuel) st0 [x] x 0 0%nat x)
    as (j1 & w2 & Hdown & Hj1 & _);
    [exact Hh|exact Hmax|unfold len; simpl; lia|reflexivity|lia|lia|].
  assert (i1 = 0) by lia. assert (j1 = 0) by lia. subst i1 j1.
  cbn [part_loop].
  rewrite (bind_done _ _ _ _ _ Hup), (bind_done _ _ _ _ _ Hdown).
  reflexivity.
Qed.

Lemma partition_single_witness :
  partition 2 (len [5; 6]) 1 (init ([5; 6] ++ [7] ++ [1]))
  = Done (0, log (EvPartition (len [5; 6]) 1) (init ([5; 6] ++ [7] ++ [1]))).
Proof.
  apply (partition_single 2 (init ([5; 6] ++ [7] ++ [1])) [5; 6] 7 [1]);
    [reflexivity|lia].
Defined.

Lemma half_bounds (n : Z) :
  2 <= n -> 1 <= Z.quot n 2 < n /\ 2 * Z.quot n 2 <= n <= 2 * Z.quot n 2 + 1.
Proof.
  intros Hn. rewrite Z.quot_div_nonneg by lia.
  pose proof (Z.div_mod n 2 ltac:(lia)).
  pose proof (Z.mod_pos_bound n 2 ltac:(lia)). lia.
Qed.

(** X4. On a strictly increasing range the two scans of the first
    pass both stop at the middle index length/2 (the pivot's own slot),
    so the first test [i >= j] succeeds: partition returns length/2
    from its first pass, and the memory is as it was. *)
Theorem partition_increasing fuel st pre l post :
  heap st = pre ++ l ++ post -> 2 <= len l <= INT_MAX ->
  StronglySorted Z.lt l ->
  len l + 2 <= Z.of_nat fuel ->
  exists pivot k,
    fuel = S k
    /\ l !! Z.to_nat (Z.quot (len l) 2) = Some pivot
    /\ scan_up k (len pre) pivot 0
         (log (EvPartition (len pre) (len l)) st)
       = Done (Z.quot (len l) 2, log (EvPartition (len pre) (len l)) st)
    /\ scan_down k (len pre) pivot (len l - 1)
         (log (EvPartition (len pre) (len l)) st)
       = Done (Z.quot (len l) 2, log (EvPartition (len pre) (len l)) st)
    /\ partition fuel (len pre) (len l) st
       = Done (Z.quot (len l) 2, log (EvPartition (len pre) (len l)) st).
Proof.
  intros Hh [H2 Hmax] Hinc Hf.
  destruct (half_bounds (len l) H2) as [Hq _].
  set (q := Z.quot (len l) 2) in *.
  destruct (lookup_lt_is_Some_2 l (Z.to_nat q)) as [pivot Hpiv];
    [unfold len in *; lia|].
  set (st0 := log (EvPartition (len pre) (len l)) st).
  destruct fuel as [|fuel]; [lia|].
  destruct (scan_up_spec pre post fuel st0 l pivot 0 (Z.to_nat q) pivot)
    as (i1 & w1 & Hup & Hi1 & Hw1 & Hpw1 & _); auto; try lia.
  destruct (scan_down_spec pre post fuel st0 l pivot (len l - 1)
              (Z.to_nat q) pivot)
    as (j1 & w2 & Hdown & Hj1 & Hw2 & Hpw2 & _); auto; try lia.
  assert (i1 = q).
  { destruct (Z.eq_dec i1 q); auto.
    pose proof (ssorted_lookup Z.lt l (Z.to_nat i1) (Z.to_nat q) w1 pivot
                  Hinc Hw1 Hpiv ltac:(lia)). lia. }
  assert (j1 = q).
  { destruct (Z.eq_dec j1 q); auto.
    pose proof (ssorted_lookup Z.lt l (Z.to_nat q) (Z.to_nat j1) pivot w2
                  Hinc Hpiv Hw2 ltac:(lia)). lia. }
  subst i1 j1.
  exists pivot, fuel.
  split; [reflexivity|]. split; [exact Hpiv|].
  split; [exact Hup|]. split; [exact Hdown|].
  unfold partition.
  erewrite (bind_done (emit _) _ st tt st0) by reflexivity.
  fold q.
  erewrite bind_done by int_ok.
  rewrite (bind_done _ _ _ _ _
             (rd_window pre post st0 l q pivot Hh ltac:(lia) Hpiv)).
  erewrite bind_done by int_ok.
  cbn [part_loop].
  rewrite (bind_done _ _ _ _ _ Hup), (bind_done _ _ _ _ _ Hdown).
  rewrite Z.geb_leb. destruct (Z.leb_spec q q); [reflexivity|lia].
Qed.

Lemma partition_increasing_witness :
  exists pivot k,
    6%nat = S k
    /\ [1; 3; 4; 8] !! Z.to_nat (Z.quot (len [1; 3; 4; 8]) 2) = Some pivot
    /\ scan_up k (len [9]) pivot 0
         (log (EvPartition (len [9]) (len [1; 3; 4; 8]))
            (init ([9] ++ [1; 3; 4; 8] ++ [0])))
       = Done (Z.quot (len [1; 3; 4; 8]) 2,
               log (EvPartition (len [9]) (len [1; 3; 4; 8]))
                 (init ([9] ++ [1; 3; 4; 8] ++ [0])))
    /\ scan_down k (len [9]) pivot (len [1; 3; 4; 8] - 1)
         (log (EvPartition (len [9]) (len [1; 3; 4; 8]))
            (init ([9] ++ [1; 3; 4; 8] ++ [0])))
       = Done (Z.quot (len [1; 3; 4; 8]) 2,
               log (EvPartition (len [9]) (len [1; 3; 4; 8]))
                 (init ([9] ++ [1; 3; 4; 8] ++ [0])))
    /\ partition 6 (len [9]) (len [1; 3; 4; 8])
         (init ([9] ++ [1; 3; 4; 8] ++ [0]))
       = Done (Z.quot (len [1; 3; 4; 8]) 2,
               log (EvPartition (len [9]) (len [1; 3; 4; 8]))
                 (init ([9] ++ [1; 3; 4; 8] ++ [0]))).
Proof.
  apply (partition_increasing 6 (init ([9] ++ [1; 3; 4; 8] ++ [0]))
           [9] [1; 3; 4; 8] [0]);
    [reflexivity|vm_compute; split; discriminate
    |repeat constructor; lia|vm_compute; discriminate].
Defined.

Section AllEqual.

Variables pre post : list Z.
Variable l : list Z.
Variable v : Z.
Hypothesis Hall : Forall (fun x => x = v) l.
Hypothesis Hmax : len l <= INT_MAX.

Lemma all_equal_lookup (k : nat) :
  (k < length l)%nat -> l !! k = Some v.
Proof.
  intros Hk. destruct (lookup_lt_is_Some_2 l k Hk) as [x Hx].
  rewrite Hx. f_equal. apply (Forall_lookup_1 _ _ _ _ Hall Hx).
Qed.

Lemma part_loop_all_equal fuel :
  forall st i j,
    heap st = pre ++ l ++ post ->
    0 <= i -> i + j = len l - 1 -> i <= Z.quot (len l) 2 -> 2 <= len l ->
    Z.quot (len l) 2 - i + 2 <= Z.of_nat fuel ->
    part_loop fuel (len pre) v i j st = Done (Z.quot (len l) 2, st).
Proof.
  induction fuel as [|fuel IH]; intros st i j Hh Hi Hij Hiq H2 Hf; [lia|].
  destruct (half_bounds (len l) H2) as [Hq Hq2].
  set (q := Z.quot (len l) 2) in *.
  assert (Hli : l !! Z.to_nat i = Some v)
    by (apply all_equal_lookup; unfold len in *; lia).
  assert (Hlj : l !! Z.to_nat j = Some v)
    by (apply all_equal_lookup; unfold len in *; lia).
  destruct (scan_up_spec pre post fuel st l v i (Z.to_nat i) v)
    as (i1 & w1 & Hup & Hi1 & _); auto; try lia.
  destruct (scan_down_spec pre post fuel st l v j (Z.to_nat j) v)
    as (j1 & w2 & Hdown & Hj1 & _); auto; try lia.
  assert (i1 = i) by lia. assert (j1 = j) by lia. subst i1 j1.
  cbn [part_loop].
  rewrite (bind_done _ _ _ _ _ Hup), (bind_done _ _ _ _ _ Hdown).
  rewrite Z.geb_leb. destruct (Z.leb_spec j i) as [Hge|Hlt].
  - unfold ret. do 2 f_equal. lia.
  - erewrite bind_done by (eapply rd_window; eauto; lia).
    erewrite bind_done by (eapply rd_window; eauto; lia).
    erewrite bind_done by (eapply wr_window; eauto; lia).
    rewrite (list_insert_id l _ _ Hli), (set_heap_id st) by auto.
    erewrite bind_done by (eapply wr_window; eauto; lia).
    rewrite (list_insert_id l _ _ Hlj), (set_heap_id st) by auto.
    erewrite bind_done by int_ok.
    erewrite bind_done by int_ok.
    apply IH; auto; lia.
Qed.

End AllEqual.

(** X5. On a range whose elements are all equal partition returns the
    middle index length/2 and leaves every element where it was:
    all-duplicate input is split evenly. *)
Theorem partition_all_equal fuel st pre l post v :
  heap st = pre ++ l ++ post -> 2 <= len l <= INT_MAX ->
  Forall (fun x => x = v) l ->
  len l + 2 <= Z.of_nat fuel ->
  partition fuel (len pre) (len l) st
  = Done (Z.quot (len l) 2, log (EvPartition (len pre) (len l)) st).
Proof.
  intros Hh [H2 Hmax] Hall Hf.
  destruct (half_bounds (len l) H2) as [Hq Hq2].
  set (st0 := log (EvPartition (len pre) (len l)) st).
  assert (Hpiv : l !! Z.to_nat (Z.quot (len l) 2) = Some v)
    by (apply all_equal_lookup; auto; unfold len in *; lia).
  unfold partition.
  erewrite (bind_done (emit _) _ st tt st0) by reflexivity.
  erewrite bind_done by int_ok.
  erewrite bind_done by (eapply (rd_window pre post st0); eauto; lia).
  erewrite bind_done by int_ok.
  apply (part_loop_all_equal pre post l v Hall Hmax); auto; lia.
Qed.

Lemma partition_all_equal_witness :
  partition 7 (len [9]) (len [2; 2; 2; 2; 2])
    (init ([9] ++ [2; 2; 2; 2; 2] ++ [0]))
  = Done (Z.quot (len [2; 2; 2; 2; 2]) 2,
          log (EvPartition (len [9]) (len [2; 2; 2; 2; 2]))
            (init ([9] ++ [2; 2; 2; 2; 2] ++ [0]))).
Proof.
  apply (partition_all_equal 7 (init ([9] ++ [2; 2; 2; 2; 2] ++ [0]))
           [9] [2; 2; 2; 2; 2] [0] 2);
    [reflexivity|vm_compute; split; discriminate
    |repeat constructor|vm_compute; discriminate].
Defined.

(** ** Cutoffs up to 2 *)

Lemma qSortPar_cutoff_le_2 fuel tc tc' c c' A length st :
  c <= 2 -> c' <= 2 ->
  qSortPar fuel (Config tc c) A length st
  = qSortPar fuel (Config tc' c') A length st.
Proof.
  intros Hc Hc'. destruct fuel as [|fuel]; [reflexivity|].
  simpl. rewrite Z.gtb_ltb.
  destruct (Z.ltb_spec 1 length) as [Hl|Hl]; [|reflexivity].
  destruct (Z.ltb_spec length c); [lia|].
  destruct (Z.ltb_spec length c'); [lia|].
  reflexivity.
Qed.

Lemma run_tasks_cutoff_le_2 fuel tc c c' sched :
  c <= 2 -> c' <= 2 ->
  forall step st,
    run_tasks fuel (Config tc c) sched step st
    = run_tasks fuel (Config tc c') sched step st.
Proof.
  intros Hc Hc'. induction fuel as [|fuel IH]; intros step st; [reflexivity|].
  simpl. destruct (pool st) as [|t0 ts]; [reflexivity|].
  apply bind_ext_on. intros t s _.
  rewrite (bind_cong _ _ _ s
             (qSortPar_cutoff_le_2 fuel tc tc c c' _ _ s Hc Hc')).
  apply bind_ext_on. intros _ s' _. apply IH.
Qed.

Lemma sort_par_cutoff_le_2 (l : list Z) (tc c c' : Z) (sched : scheduler)
    (fuel : nat) :
  c <= 2 -> c' <= 2 ->
  sort_par fuel (Config tc c) sched l = sort_par fuel (Config tc c') sched l.
Proof.
  intros Hc Hc'. unfold sort_par, parallel_single.
  rewrite (bind_cong _ _ _ _
             (qSortPar_cutoff_le_2 fuel tc tc c c' 0 (len l) (init l)
                Hc Hc')).
  apply bind_ext_on. intros _ s _.
  now apply run_tasks_cutoff_le_2.
Qed.

(** X6. A cutoff of 2, 1, 0 or below makes no difference: the test
    [length < cutoff] is reached only with length > 1, so for every
    cutoff <= 2 the parallel region runs exactly as with cutoff 1,
    forking at every range it partitions. *)
Theorem cutoff_le_2_is_cutoff_1 (l : list Z) (tc c : Z) (sched : scheduler)
    (fuel : nat) :
  c <= 2 ->
  sort_par fuel (Config tc c) sched l = sort_par fuel (Config tc 1) sched l.
Proof.
  intros Hc. apply sort_par_cutoff_le_2; lia.
Qed.

Lemma cutoff_le_2_is_cutoff_1_witness :
  sort_par 19 (Config 4 2) (fun _ n _ => n) [9; 8; 7; 6; 5]
  = sort_par 19 (Config 4 1) (fun _ n _ => n) [9; 8; 7; 6; 5].
Proof.
  apply (cutoff_le_2_is_cutoff_1 [9; 8; 7; 6; 5] 4 2 (fun _ n _ => n) 19).
  lia.
Defined.

(** ** Counting partition calls and task creations *)

Lemma parts_app t1 t2 : parts (t1 ++ t2) = (parts t1 + parts t2)%nat.
Proof. induction t1 as [|[A L|A L] t1 IH]; simpl; lia. Qed.

Lemma spawns_app t1 t2 : spawns (t1 ++ t2) = (spawns t1 + spawns t2)%nat.
Proof. induction t1 as [|[A L|A L] t1 IH]; simpl; lia. Qed.

Lemma parts_spawns tr : (parts tr + spawns tr)%nat = length tr.
Proof. induction tr as [|[A L|A L] tr IH]; simpl; lia. Qed.

Lemma inside_weaken lo hi lo' hi' e :
  lo' <= lo -> hi <= hi' -> inside lo hi e -> inside lo' hi' e.
Proof. destruct e; simpl; lia. Qed.

Lemma Forall_inside_weaken lo hi lo' hi' tr :
  lo' <= lo -> hi <= hi' ->
  Forall (inside lo hi) tr -> Forall (inside lo' hi') tr.
Proof.
  intros Hlo Hhi H. eapply Forall_impl; [exact H|].
  intros e. now apply inside_weaken.
Qed.

Lemma pool_cuts_app ts1 ts2 :
  pool_cuts (ts1 ++ ts2) = pool_cuts ts1 + pool_cuts ts2.
Proof. induction ts1 as [|t ts1 IH]; simpl; lia. Qed.

Lemma pool_cuts_delete ts (n : nat) t :
  ts !! n = Some t -> pool_cuts ts = (t_len t - 1) + pool_cuts (delete n ts).
Proof.
  revert n. induction ts as [|t0 ts IH]; intros [|n] Hn; simpl in *;
    try discriminate.
  - now injection Hn as ->.
  - rewrite (IH n Hn). lia.
Qed.

Lemma forks_only_spawns tr :
  forks_only tr = true -> spawns tr = (2 * parts tr)%nat.
Proof.
  remember (length tr) as n eqn:Hn.
  assert (Hle : (length tr <= n)%nat) by lia. clear Hn.
  revert tr Hle. induction n as [|n IH]; intros tr Hle H.
  - destruct tr; [reflexivity|simpl in Hle; lia].
  - destruct tr as [|[A L|] [|[|A1 p] [|[|A2 q] tr]]];
      simpl in *; try discriminate; auto.
    apply andb_true_iff in H as [_ H].
    rewrite (IH tr) by (auto; lia). lia.
Qed.

(** Every finished run of qSort on a range of n elements has logged
    n - 1 partition calls (none for n = 0), each inside the range. *)
Lemma qSort_log fuel :
  forall st pre l post st',
    heap st = pre ++ l ++ post -> len l <= INT_MAX ->
    qSort fuel (len pre) (len l) st = Done (tt, st') ->
    exists tr,
      trace st' = trace st ++ tr
      /\ length tr = (length l - 1)%nat
      /\ parts tr = length tr
      /\ Forall (inside (len pre) (len pre + len l)) tr.
Proof.
  induction fuel as [|fuel IH]; intros st pre l post st' Hh Hmax Hrun;
    [discriminate|].
  simpl in Hrun. rewrite Z.gtb_ltb in Hrun.
  destruct (Z.ltb_spec 1 (len l)) as [Hl|Hl].
  - apply bind_inv in Hrun as (p & st1 & Hpart & Hrun).
    destruct (partition_done _ _ _ _ _ _ _ Hh ltac:(lia) Hpart)
      as (l1 & l2 & pivot & -> & -> & Hperm & Hl1 & Hl2 & _).
    pose proof (len_split _ _ _ Hperm) as Hlen.
    apply bind_inv in Hrun as ([] & st2 & Hq1 & Hrun).
    match type of Hq1 with qSort _ _ _ ?s = _ => set (st1 := s) in * end.
    assert (Hh1 : heap st1 = pre ++ l1 ++ (l2 ++ post)).
    { simpl. now rewrite <- app_assoc. }
    destruct (qSort_done _ _ _ _ _ _ Hh1 ltac:(lia) Hq1)
      as (l1' & tr0 & Hst2 & Hperm1 & _).
    destruct (IH _ _ _ _ _ Hh1 ltac:(lia) Hq1)
      as (tr1 & Htr1 & Hlen1 & Hparts1 & Hin1).
    pose proof (len_perm _ _ Hperm1) as Hl1'.
    apply bind_inv in Hrun as (n & s & Hint & Hrun).
    rewrite int_done in Hint by (unfold INT_MIN, INT_MAX in *; lia).
    injection Hint as <- <-.
    replace (len l - len l1) with (len l2) in Hrun by lia.
    replace (len pre + len l1) with (len (pre ++ l1')) in Hrun
      by (rewrite len_app; lia).
    assert (Hh2 : heap st2 = (pre ++ l1') ++ l2 ++ post).
    { rewrite Hst2. simpl. now rewrite <- app_assoc. }
    destruct (IH _ _ _ _ _ Hh2 ltac:(lia) Hrun)
      as (tr2 & Htr2 & Hlen2 & Hparts2 & Hin2).
    exists (EvPartition (len pre) (len l) :: tr1 ++ tr2).
    split; [|split; [|split]].
    + rewrite Htr2, Htr1. simpl. now rewrite <- !app_assoc.
    + simpl. rewrite length_app, Hlen1, Hlen2.
      assert (length l = length l1 + length l2)%nat
        by (rewrite (Permutation_length Hperm); apply length_app).
      unfold len in *. lia.
    + simpl. rewrite parts_app, length_app. lia.
    + constructor; [simpl; lia|].
      apply Forall_app. split.
      * eapply Forall_inside_weaken; [| |exact Hin1]; lia.
      * eapply Forall_inside_weaken; [| |exact Hin2];
          rewrite len_app; lia.
  - injection Hrun as <-. exists [].
    rewrite app_nil_r. repeat split; auto.
    simpl. unfold len in *. lia.
Qed.

Section ParallelLog.

Variable cfg : config.
Variable sched : scheduler.

(** One call of qSortPar on a non-empty range: what it logs, what it
    queues, and the partition calls it leaves to the queued tasks. *)
Lemma qSortPar_log fuel st pre l post st' :
  heap st = pre ++ l ++ post -> 1 <= len l <= INT_MAX ->
  qSortPar fuel cfg (len pre) (len l) st = Done (tt, st') ->
  exists tr ts,
    trace st' = trace st ++ tr
    /\ pool st' = pool st ++ ts
    /\ Z.of_nat (parts tr) + pool_cuts ts = len l - 1
    /\ (spawns tr <= 2 * parts tr)%nat
    /\ Forall (inside (len pre) (len pre + len l)) tr.
Proof.
  intros Hh [Hl1 Hmax] Hrun.
  destruct (Z.lt_ge_cases (len l) (cutoff cfg)) as [Hcut|Hcut];
    [|destruct (Z.le_gt_cases (len l) 1) as [Hshort|Hlong]].
  1,2: rewrite (qSortPar_inline cfg fuel st pre l post) in Hrun
         by (auto; lia);
       destruct (qSort_done _ _ _ _ _ _ Hh Hmax Hrun)
         as (l' & tr0 & Hst' & _);
       destruct (qSort_log _ _ _ _ _ _ Hh Hmax Hrun)
         as (tr & Htr & Hlen & Hparts & Hin);
       exists tr, []; rewrite app_nil_r;
       pose proof (parts_spawns tr);
       (split; [exact Htr|]); (split; [now rewrite Hst'|]);
       (split; [simpl; unfold len in *; lia|]);
       (split; [lia|exact Hin]).
  destruct fuel as [|fuel]; [discriminate|].
  simpl in Hrun. rewrite Z.gtb_ltb in Hrun.
  destruct (Z.ltb_spec 1 (len l)); [|lia].
  apply bind_inv in Hrun as (p & st1 & Hpart & Hrun).
  destruct (partition_done _ _ _ _ _ _ _ Hh ltac:(lia) Hpart)
    as (l1 & l2 & pivot & -> & -> & Hperm & Hl1' & Hl2' & _).
  pose proof (len_split _ _ _ Hperm) as Hlen.
  destruct (Z.ltb_spec (len l) (cutoff cfg)); [lia|].
  apply bind_inv in Hrun as ([] & s1 & Hs1 & Hrun).
  unfold spawn in Hs1. injection Hs1 as <-.
  apply bind_inv in Hrun as (n & s2 & Hint & Hrun).
  rewrite int_done in Hint by (unfold INT_MIN, INT_MAX in *; lia).
  injection Hint as <- <-.
  unfold spawn in Hrun. injection Hrun as <-.
  exists [EvPartition (len pre) (len l);
          EvTask (len pre) (len l1);
          EvTask (len pre + len l1) (len l - len l1)],
         [Task (len pre) (len l1);
          Task (len pre + len l1) (len l - len l1)].
  simpl. rewrite <- !app_assoc. simpl.
  repeat split; auto; try lia.
  repeat constructor; simpl; lia.
Qed.

Lemma run_tasks_log fuel :
  forall st bs step,
    Inv st bs -> len (flat bs) <= INT_MAX ->
    (weight bs + length (flat bs) + 4 <= fuel)%nat ->
    exists st' tr,
      run_tasks fuel cfg sched step st = Done (tt, st')
      /\ pool st' = []
      /\ trace st' = trace st ++ tr
      /\ Z.of_nat (parts tr) = pool_cuts (pool st)
      /\ (spawns tr <= 2 * parts tr)%nat
      /\ Forall (inside 0 (len (flat bs))) tr.
Proof.
  induction fuel as [|fuel IH]; intros st bs step HInv Hmax Hf; [lia|].
  assert (Hcase : pool st = [] \/ pool st <> [])
    by (destruct (pool st); [left|right]; congruence).
  destruct Hcase as [Hnil|Hne].
  - rewrite run_tasks_nil by auto.
    exists st, []. rewrite app_nil_r, Hnil. repeat split; auto.
  - rewrite run_tasks_pick by auto.
    set (n := (sched (thread_count cfg) step (pool st)
                 mod length (pool st))%nat).
    assert (Hn : (n < length (pool st))%nat).
    { apply Nat.mod_upper_bound. destruct (pool st); simpl; congruence. }
    destruct (lookup_lt_is_Some_2 _ _ Hn) as [t Ht].
    erewrite bind_done by (unfold take_task; rewrite Ht; reflexivity).
    destruct (Inv_step cfg fuel st bs n t HInv Ht Hmax)
      as (st1 & bs1 & tr0 & Hrun1 & HInv1 & Hperm1 & Hw1 & _); [lia|].
    rewrite (bind_done _ _ _ _ _ Hrun1).
    (* the window of the task that ran *)
    destruct HInv as (Hheap & Hpool & Hord & Hset).
    assert (Hin : t ∈ tasks_of 0 bs).
    { rewrite <- Hpool. eapply list_elem_of_lookup_2; eauto. }
    destruct (tasks_of_elem _ _ _ Hin) as (B1 & l & B2 & Hbs & Hteq).
    rewrite Hteq in Hrun1. simpl in Hrun1. rewrite Z.add_0_l in Hrun1.
    assert (Hl : 1 <= len l).
    { rewrite Hbs in Hset. apply Forall_app in Hset as [_ Hset].
      now apply Forall_cons in Hset as [Hl _]. }
    assert (Hflat : flat bs = flat B1 ++ l ++ flat B2)
      by (rewrite Hbs, flat_app; reflexivity).
    assert (Hlens : len (flat bs) = len (flat B1) + len l + len (flat B2))
      by (rewrite Hflat, !len_app; lia).
    pose proof (len_nonneg (flat B1)). pose proof (len_nonneg (flat B2)).
    destruct (qSortPar_log fuel (set_pool (delete n (pool st)) st)
                (flat B1) l (flat B2) st1)
      as (tr1 & ts1 & Htr1 & Hpool1 & Hcount1 & Hsp1 & Hin1);
      [simpl; congruence|lia|exact Hrun1|].
    simpl in Htr1, Hpool1.
    assert (Hlen1 : length (flat bs1) = length (flat bs))
      by now rewrite (Permutation_length Hperm1).
    destruct (IH st1 bs1 (S step) HInv1)
      as (st2 & tr2 & Hrun2 & Hpool2 & Htr2 & Hcount2 & Hsp2 & Hin2).
    { unfold len in *. now rewrite Hlen1. }
    { lia. }
    exists st2, (tr1 ++ tr2). rewrite Hrun2, Htr2, Htr1, app_assoc.
    split; [reflexivity|]. split; [exact Hpool2|]. split; [reflexivity|].
    split; [|split].
    + rewrite parts_app, Nat2Z.inj_add, Hcount2, Hpool1, pool_cuts_app.
      rewrite (pool_cuts_delete _ _ _ Ht), Hteq. simpl. lia.
    + rewrite spawns_app, parts_app. lia.
    + apply Forall_app. split.
      * eapply Forall_inside_weaken; [| |exact Hin1]; lia.
      * replace (len (flat bs)) with (len (flat bs1));
          [exact Hin2|unfold len; now rewrite Hlen1].
Qed.

Lemma sort_par_log fuel l :
  len l <= INT_MAX -> (3 * length l + 4 <= fuel)%nat ->
  exists st,
    sort_par fuel cfg sched l = Done (tt, st)
    /\ pool st = []
    /\ parts (trace st) = (length l - 1)%nat
    /\ (spawns (trace st) <= 2 * parts (trace st))%nat
    /\ Forall (inside 0 (len l)) (trace st).
Proof.
  intros Hmax Hf.
  assert (Hcase : l = [] \/ 1 <= len l)
    by (destruct l; [now left|right; unfold len; simpl; lia]).
  destruct Hcase as [->|Hl1].
  { destruct fuel as [|fuel]; [lia|].
    exists (init []). repeat split; auto. }
  unfold sort_par, parallel_single.
  destruct (qSortPar_block cfg fuel (init l) [] l [])
    as (st1 & new & tr0 & Hrun1 & Hheap1 & Hpool1 & _ & Hord1 & Hset1
        & Hperm1 & Hw1 & _).
  { simpl. now rewrite app_nil_r. }
  { apply ordered_single. }
  { auto. }
  { unfold len. lia. }
  change (len (flat [])) with 0 in *. simpl in Hheap1, Hpool1, Hord1.
  rewrite app_nil_r in Hheap1, Hord1.
  rewrite (bind_done _ _ _ _ _ Hrun1).
  destruct (qSortPar_log fuel (init l) [] l [] st1)
    as (tr1 & ts1 & Htr1 & Hpool1' & Hcount1 & Hsp1 & Hin1);
    [simpl; now rewrite app_nil_r|lia|exact Hrun1|].
  simpl in Htr1, Hpool1'. change (len []) with 0 in Hin1.
  assert (Hlen1 : length (flat new) = length l)
    by now rewrite (Permutation_length Hperm1).
  destruct (run_tasks_log fuel st1 new 0%nat)
    as (st2 & tr2 & Hrun2 & Hpool2 & Htr2 & Hcount2 & Hsp2 & Hin2).
  { repeat split; auto. now rewrite Hpool1. }
  { unfold len in *. now rewrite Hlen1. }
  { lia. }
  exists st2. rewrite Hrun2, Htr2, Htr1.
  split; [reflexivity|]. split; [exact Hpool2|].
  rewrite parts_app, spawns_app.
  split; [|split].
  - rewrite Hpool1' in Hcount2. unfold len in *. lia.
  - lia.
  - apply Forall_app. split; [exact Hin1|].
    replace (len l) with (len (flat new)); [exact Hin2|].
    unfold len. now rewrite Hlen1.
Qed.

End ParallelLog.

(** X7. The sequential sorter calls partition exactly length - 1 times
    on an array of length >= 1 (never on an empty array), always on a
    range of at least two elements inside the array, and logs nothing
    else. *)
Theorem sort_seq_partition_calls (l : list Z) (fuel : nat) :
  len l <= INT_MAX -> (length l + 3 <= fuel)%nat ->
  exists st,
    sort_seq fuel l = Done (tt, st)
    /\ length (trace st) = (length l - 1)%nat
    /\ parts (trace st) = length (trace st)
    /\ Forall (inside 0 (len l)) (trace st).
Proof.
  intros Hmax Hf.
  destruct (sort_seq_spec fuel l Hmax Hf) as (st & Hrun & _).
  exists st. split; [exact Hrun|].
  destruct (qSort_log fuel (init l) [] l [] st)
    as (tr & Htr & Hlen & Hparts & Hin);
    [simpl; now rewrite app_nil_r|exact Hmax|exact Hrun|].
  simpl in Htr. rewrite Htr. auto.
Qed.

Lemma sort_seq_partition_calls_witness :
  exists st,
    sort_seq 9 [5; 3; 8; 1; 9; 2] = Done (tt, st)
    /\ length (trace st) = (length [5; 3; 8; 1; 9; 2] - 1)%nat
    /\ parts (trace st) = length (trace st)
    /\ Forall (inside 0 (len [5; 3; 8; 1; 9; 2])) (trace st).
Proof.
  apply (sort_seq_partition_calls [5; 3; 8; 1; 9; 2] 9);
    [unfold len, INT_MAX; simpl; lia|simpl; lia].
Defined.



(** With cutoff 0 every partition call has created its two tasks
    by the end of the region. *)
Lemma sort_par_counts_cutoff_0 tc sched fuel l :
  len l <= INT_MAX -> (3 * length l + 4 <= fuel)%nat ->
  exists st,
    sort_par fuel (Config tc 0) sched l = Done (tt, st)
    /\ parts (trace st) = (length l - 1)%nat
    /\ spawns (trace st) = (2 * parts (trace st))%nat.
Proof.
  intros Hmax Hf.
  destruct (sort_par_spec (Config tc 0) sched fuel l Hmax Hf)
    as (st & Hrun & _ & _ & _ & Hforks).
  destruct (sort_par_log (Config tc 0) sched fuel l Hmax Hf)
    as (st' & Hrun' & _ & Hparts & _).
  rewrite Hrun in Hrun'. injection Hrun' as <-.
  exists st. split; [exact Hrun|]. split; [exact Hparts|].
  apply forks_only_spawns. apply Hforks. simpl. lia.
Qed.

(** X9. With a cutoff of at most 2 the fan-out is the largest
    possible: every one of the length - 1 partition calls creates its
    two tasks, so exactly 2 * (length - 1) tasks are created, down to
    single elements. *)
Theorem cutoff_le_2_max_fanout (l : list Z) (cfg : config)
    (sched : scheduler) (fuel : nat) :
  len l <= INT_MAX -> cutoff cfg <= 2 ->
  (3 * length l + 4 <= fuel)%nat ->
  exists st,
    sort_par fuel cfg sched l = Done (tt, st)
    /\ parts (trace st) = (length l - 1)%nat
    /\ spawns (trace st) = (2 * (length l - 1))%nat.
Proof.
  intros Hmax Hc Hf. destruct cfg as [tc c]. simpl in Hc.
  rewrite (sort_par_cutoff_le_2 l tc c 0 sched fuel Hc ltac:(lia)).
  destruct (sort_par_counts_cutoff_0 tc sched fuel l Hmax Hf)
    as (st & Hrun & Hparts & Hsp).
  exists st. rewrite <- Hparts at 2. auto.
Qed.

Lemma cutoff_le_2_max_fanout_witness :
  exists st,
    sort_par 16 (Config 2 2) (fun _ n _ => n) [4; 1; 3; 2] = Done (tt, st)
    /\ parts (trace st) = (length [4; 1; 3; 2] - 1)%nat
    /\ spawns (trace st) = (2 * (length [4; 1; 3; 2] - 1))%nat.
Proof.
  apply (cutoff_le_2_max_fanout [4; 1; 3; 2] (Config 2 2)
           (fun _ n _ => n) 16);
    [unfold len, INT_MAX; simpl; lia|simpl; lia|simpl; lia].
Defined.

(** ** The configuration is never checked *)




(** ** No fault at any fuel *)

Lemma qSortPar_mono cfg k k' :
  (k <= k')%nat ->
  forall A length st,
    below (qSortPar k cfg A length st) (qSortPar k' cfg A length st).
Proof.
  revert k'. induction k as [|k IH]; intros [|k'] Hk A length st;
    try lia; try (now left).
  simpl. destruct (length >? 1); auto.
  apply below_bind; [apply partition_mono; lia|]. intros p s1.
  destruct (length <? cutoff cfg); auto.
  apply below_bind; [apply IH; lia|]. intros _ s2.
  apply below_bind; auto. intros l2 s3. apply IH; lia.
Qed.

Lemma run_tasks_mono cfg sched k k' :
  (k <= k')%nat ->
  forall step st,
    below (run_tasks k cfg sched step st) (run_tasks k' cfg sched step st).
Proof.
  revert k'. induction k as [|k IH]; intros [|k'] Hk step st;
    try lia; try (now left).
  simpl. destruct (pool st) as [|t0 ts]; auto.
  apply below_bind; auto. intros t s1.
  apply below_bind; [apply qSortPar_mono; lia|]. intros _ s2.
  apply IH; lia.
Qed.

(** X10. Neither sorter ever reads or writes outside the array or
    overflows an int, however far the run gets: at no fuel does a run
    on an array end in a fault. *)
Theorem sorters_never_fault (l : list Z) (cfg : config) (sched : scheduler)
    (fuel : nat) :
  len l <= INT_MAX ->
  sort_seq fuel l <> Fault /\ sort_par fuel cfg sched l <> Fault.
Proof.
  intros Hmax.
  set (big := (fuel + (3 * length l + 4))%nat).
  split; intros Hfault.
  - destruct (sort_seq_spec big l Hmax) as (st & Hrun & _); [lia|].
    pose proof (below_fault _ _
      (qSort_mono fuel big ltac:(lia) 0 (len l) (init l)) Hfault) as Hbig.
    unfold sort_seq in Hrun. congruence.
  - destruct (sort_par_spec cfg sched big l Hmax) as (st & Hrun & _); [lia|].
    assert (Hbelow : below (sort_par fuel cfg sched l)
                       (sort_par big cfg sched l)).
    { unfold sort_par, parallel_single.
      apply below_bind; [apply qSortPar_mono; lia|]. intros _ s.
      apply run_tasks_mono. lia. }
    pose proof (below_fault _ _ Hbelow Hfault). congruence.
Qed.

Lemma sorters_never_fault_witness :
  sort_seq 2 [5; 3; 8; 1; 9; 2] <> Fault
  /\ sort_par 2 (Config 4 1) (fun _ n _ => n) [5; 3; 8; 1; 9; 2] <> Fault.
Proof.
  apply (sorters_never_fault [5; 3; 8; 1; 9; 2] (Config 4 1)
           (fun _ n _ => n) 2).
  unfold len, INT_MAX; simpl; lia.
Defined.

(** ** Pending tasks never overlap *)

Lemma apart_sym t1 t2 : apart t1 t2 -> apart t2 t1.
Proof. unfold apart. tauto. Qed.

Lemma no_overlap_perm ts ts' :
  ts ≡ₚ ts' -> no_overlap ts -> no_overlap ts'.
Proof.
  induction 1 as [|t ts ts' Hp IH|t1 t2 ts|ts1 ts2 ts3 _ IH1 _ IH2];
    intros Hno; auto.
  - inversion Hno as [|? ? Hall Hts]; subst.
    constructor; [now rewrite <- Hp|auto].
  - inversion Hno as [|? ? Hall1 Hno1]; subst.
    inversion Hno1 as [|? ? Hall2 Hno2]; subst.
    apply Forall_cons in Hall1 as [H12 Hall1].
    constructor;
      [constructor; [now apply apart_sym|exact Hall2]
      |constructor; [exact Hall1|exact Hno2]].
Qed.

Lemma tasks_of_inside a bs :
  Forall settled bs ->
  Forall (task_inside a (a + len (flat bs))) (tasks_of a bs).
Proof.
  revert a. induction bs as [|[l|l] bs IH]; intros a Hs; simpl.
  - constructor.
  - apply Forall_cons in Hs as [Hl Hs]. simpl in Hl.
    pose proof (len_nonneg (flat bs)).
    rewrite len_app. constructor.
    + unfold task_inside. simpl. lia.
    + eapply Forall_impl; [apply (IH (a + len l) Hs)|].
      intros t. unfold task_inside. lia.
  - apply Forall_cons in Hs as [_ Hs].
    pose proof (len_nonneg l).
    rewrite len_app.
    eapply Forall_impl; [apply (IH (a + len l) Hs)|].
    intros t. unfold task_inside. lia.
Qed.

Lemma tasks_of_no_overlap a bs :
  Forall settled bs -> no_overlap (tasks_of a bs).
Proof.
  revert a. induction bs as [|[l|l] bs IH]; intros a Hs; simpl.
  - constructor.
  - apply Forall_cons in Hs as [Hl Hs].
    constructor; [|auto].
    eapply Forall_impl; [apply (tasks_of_inside (a + len l) bs Hs)|].
    intros t. unfold task_inside, apart. simpl. lia.
  - apply Forall_cons in Hs as [_ Hs]. auto.
Qed.

Lemma Inv_pool st bs :
  Inv st bs ->
  no_overlap (pool st)
  /\ Forall (task_inside 0 (len (heap st))) (pool st).
Proof.
  intros (Hheap & Hpool & _ & Hset). split.
  - apply (no_overlap_perm (tasks_of 0 bs)); [now symmetry|].
    now apply tasks_of_no_overlap.
  - rewrite Hpool, Hheap. apply (tasks_of_inside 0 bs Hset).
Qed.

Lemma reachable_Inv cfg l st :
  len l <= INT_MAX -> reachable cfg l st ->
  exists bs, Inv st bs /\ l ≡ₚ flat bs.
Proof.
  intros Hmax Hreach.
  induction Hreach as [fuel st Hrun|fuel st n t s st' _ IH Htake Hrun].
  - set (big := (fuel + (length l + 3))%nat).
    destruct (qSortPar_block cfg big (init l) [] l [])
      as (st1 & new & tr & Hbig & Hheap & Hpool & _ & Hord & Hset
          & Hperm & _).
    { simpl. now rewrite app_nil_r. }
    { apply ordered_single. }
    { exact Hmax. }
    { unfold len. lia. }
    change (len (flat [])) with 0 in *.
    pose proof (below_done _ _ _
      (qSortPar_mono cfg fuel big ltac:(lia) 0 (len l) (init l)) Hrun)
      as Heq.
    rewrite Hbig in Heq. injection Heq as ->.
    simpl in Hheap, Hpool, Hord. rewrite app_nil_r in Hheap, Hord.
    exists new. repeat split; auto. now rewrite Hpool.
  - destruct IH as (bs & HInv & Hperm).
    unfold take_task in Htake.
    destruct (pool st !! n) as [t'|] eqn:Hn; [|discriminate].
    injection Htake as -> <-.
    set (big := (fuel + (length (flat bs) + 3))%nat).
    destruct (Inv_step cfg big st bs n t HInv Hn)
      as (st1 & bs1 & tr & Hbig & HInv1 & Hperm1 & _).
    { unfold len in *. now rewrite <- (Permutation_length Hperm). }
    { lia. }
    pose proof (below_done _ _ _
      (qSortPar_mono cfg fuel big ltac:(lia) (t_base t) (t_len t)
         (set_pool (delete n (pool st)) st)) Hrun) as Heq.
    rewrite Hbig in Heq. injection Heq as ->.
    exists bs1. split; [exact HInv1|]. now rewrite Hperm.
Qed.

(** X11. At every point of the parallel region the tasks waiting in
    the pool are on non-empty ranges inside the array that do not
    overlap one another, whichever tasks were taken so far and in
    whichever order; the array holds a permutation of the input. *)
Theorem pending_tasks_disjoint (cfg : config) (l : list Z) (st : state) :
  len l <= INT_MAX -> reachable cfg l st ->
  no_overlap (pool st)
  /\ Forall (task_inside 0 (len l)) (pool st)
  /\ Permutation l (heap st).
Proof.
  intros Hmax Hreach.
  destruct (reachable_Inv cfg l st Hmax Hreach) as (bs & HInv & Hperm).
  destruct (Inv_pool st bs HInv) as [Hno Hin].
  destruct HInv as (Hheap & _).
  rewrite Hheap in *.
  rewrite <- (len_perm _ _ Hperm) in Hin. auto.
Qed.

Lemma pending_tasks_disjoint_witness :
  no_overlap
    (pool {| heap := [1; 2; 3; 4];
             pool := [Task 0 2; Task 2 2];
             trace := [EvPartition 0 4; EvTask 0 2; EvTask 2 2] |})
  /\ Forall (task_inside 0 (len [4; 3; 2; 1]))
       (pool {| heap := [1; 2; 3; 4];
                pool := [Task 0 2; Task 2 2];
                trace := [EvPartition 0 4; EvTask 0 2; EvTask 2 2] |})
  /\ Permutation [4; 3; 2; 1]
       (heap {| heap := [1; 2; 3; 4];
                pool := [Task 0 2; Task 2 2];
                trace := [EvPartition 0 4; EvTask 0 2; EvTask 2 2] |}).
Proof.
  apply (pending_tasks_disjoint (Config 2 1) [4; 3; 2; 1]).
  - unfold len, INT_MAX; simpl; lia.
  - apply (reach_start (Config 2 1) [4; 3; 2; 1] 7). reflexivity.
Defined.

(** X12. A call of qSortPar on any range shorter than the cutoff, at
    any depth and inside any task, runs exactly as qSort on that range:
    same memory, same log, no task created. *)
Theorem below_cutoff_is_qSort (cfg : config) fuel st pre l post :
  heap st = pre ++ l ++ post -> len l <= INT_MAX ->
  len l < cutoff cfg ->
  qSortPar fuel cfg (len pre) (len l) st = qSort fuel (len pre) (len l) st.
Proof.
  intros Hh Hmax Hcut. apply (qSortPar_inline cfg fuel st pre l post); auto.
Qed.

Lemma below_cutoff_is_qSort_witness :
  qSortPar 6 (Config 2 4) (len [9]) (len [3; 1; 2])
    (init ([9] ++ [3; 1; 2] ++ [0]))
  = qSort 6 (len [9]) (len [3; 1; 2]) (init ([9] ++ [3; 1; 2] ++ [0])).
Proof.
  apply (below_cutoff_is_qSort (Config 2 4) 6
           (init ([9] ++ [3; 1; 2] ++ [0])) [9] [3; 1; 2] [0]);
    [reflexivity|unfold len, INT_MAX; simpl; lia|reflexivity].
Defined.
